(** * esphome/core/helpers.h : byte order, hex parsing, allocator

    A shallow embedding of the algorithmic part of [esphome/core/helpers.h].
    Unsigned C++ integers are values of [Z] with their wrap-around written
    out ([cast]); [size_t] quantities that count buffer elements are [nat];
    byte buffers are [list Z] whose elements satisfy [is_byte]. *)

From Stdlib Require Import String Ascii ZArith List Lia Bool Arith Btauto.
From coqutil Require Import Z.bitblast.
Import ListNotations.

Local Open Scope Z_scope.

(** ** Unsigned integer types *)

(** The four unsigned types the templates are instantiated at. *)
Inductive uint_t : Set := uint8_t | uint16_t | uint32_t | uint64_t.

Definition sizeof (T : uint_t) : nat :=
  match T with
  | uint8_t => 1
  | uint16_t => 2
  | uint32_t => 4
  | uint64_t => 8
  end%nat.

Definition bits (T : uint_t) : Z := 8 * Z.of_nat (sizeof T).

(** [static_cast<T>(x)], also the implicit conversion of an assignment or of a
    [return] to [T]: reduction modulo [2^bits]. *)
Definition cast (T : uint_t) (x : Z) : Z := x mod 2 ^ bits T.

Definition in_range (T : uint_t) (x : Z) : Prop := 0 <= x < 2 ^ bits T.

Definition is_byte (b : Z) : Prop := 0 <= b < 256.

(** ** std::byteswap backport (helpers.h:294-297)

    [__builtin_bswap16/32/64] are compiler intrinsics; they are written out
    here as the usual mask-and-shift byte reversal. *)

Definition bswap16 (n : Z) : Z :=
  Z.lor (Z.shiftl (Z.land n 0xFF) 8) (Z.land (Z.shiftr n 8) 0xFF).

Definition bswap32 (n : Z) : Z :=
  Z.lor (Z.lor (Z.lor
    (Z.shiftl (Z.land n 0xFF) 24)
    (Z.shiftl (Z.land (Z.shiftr n 8) 0xFF) 16))
    (Z.shiftl (Z.land (Z.shiftr n 16) 0xFF) 8))
    (Z.land (Z.shiftr n 24) 0xFF).

Definition bswap64 (n : Z) : Z :=
  Z.lor (Z.lor (Z.lor (Z.lor (Z.lor (Z.lor (Z.lor
    (Z.shiftl (Z.land n 0xFF) 56)
    (Z.shiftl (Z.land (Z.shiftr n 8) 0xFF) 48))
    (Z.shiftl (Z.land (Z.shiftr n 16) 0xFF) 40))
    (Z.shiftl (Z.land (Z.shiftr n 24) 0xFF) 32))
    (Z.shiftl (Z.land (Z.shiftr n 32) 0xFF) 24))
    (Z.shiftl (Z.land (Z.shiftr n 40) 0xFF) 16))
    (Z.shiftl (Z.land (Z.shiftr n 48) 0xFF) 8))
    (Z.land (Z.shiftr n 56) 0xFF).

(** The four overloads of [byteswap], selected by the argument type. *)
Definition byteswap (T : uint_t) (n : Z) : Z :=
  match T with
  | uint8_t => n
  | uint16_t => bswap16 n
  | uint32_t => bswap32 n
  | uint64_t => bswap64 n
  end.

(** ** Bit manipulation (helpers.h:304-363) *)

(** [encode_uint16(msb, lsb)]; the operands are promoted, the result is
    converted back to [uint16_t] by the [return]. *)
Definition encode_uint16 (msb lsb : Z) : Z :=
  cast uint16_t (Z.lor (Z.shiftl (cast uint16_t msb) 8) (cast uint16_t lsb)).

(** [encode_uint32(byte1, byte2, byte3, byte4)]; the shifts are 32-bit
    unsigned shifts. *)
Definition encode_uint32 (byte1 byte2 byte3 byte4 : Z) : Z :=
  Z.lor (Z.lor (Z.lor
    (cast uint32_t (Z.shiftl (cast uint32_t byte1) 24))
    (cast uint32_t (Z.shiftl (cast uint32_t byte2) 16)))
    (cast uint32_t (Z.shiftl (cast uint32_t byte3) 8)))
    (cast uint32_t byte4).

(** [bytes[i]] for a buffer held as a list. *)
Definition byte_at (bytes : list Z) (i : nat) : Z := nth i bytes 0.

(** [ret[i] = v] on a [std::array] held as a list (no effect out of range,
    which the loops below never reach). *)
Fixpoint array_set (ret : list Z) (i : nat) (v : Z) : list Z :=
  match ret, i with
  | [], _ => []
  | _ :: tl, O => v :: tl
  | hd :: tl, S i' => hd :: array_set tl i' v
  end.

(** One iteration of the loop of [encode_value]: [val <<= 8; val |= bytes[i]]. *)
Definition encode_step (T : uint_t) (bytes : list Z) (val : Z) (i : nat) : Z :=
  cast T (Z.lor (cast T (Z.shiftl val 8)) (byte_at bytes i)).

(** [encode_value<T>(bytes)]: [for (i = 0; i < sizeof(T); i++)]. *)
Definition encode_value (T : uint_t) (bytes : list Z) : Z :=
  fold_left (encode_step T bytes) (seq 0 (sizeof T)) 0.

(** One iteration of the loop of [decode_value]:
    [ret[i - 1] = val & 0xFF; val >>= 8], the state being [(ret, val)]. *)
Definition decode_step (st : list Z * Z) (i : nat) : list Z * Z :=
  let '(ret, val) := st in
  (array_set ret (i - 1) (Z.land val 0xFF), Z.shiftr val 8).

(** [decode_value<T>(val)]: [for (i = sizeof(T); i > 0; i--)], starting from
    the value-initialised array. *)
Definition decode_value (T : uint_t) (val : Z) : list Z :=
  fst (fold_left decode_step (rev (seq 1 (sizeof T)))
                 (repeat 0 (sizeof T), val)).

(** [reverse_bits(uint8_t)]: every assignment to [x] converts to [uint8_t]. *)
Definition reverse_bits8 (x : Z) : Z :=
  let x := cast uint8_t (Z.lor (Z.shiftr (Z.land x 0xAA) 1) (Z.shiftl (Z.land x 0x55) 1)) in
  let x := cast uint8_t (Z.lor (Z.shiftr (Z.land x 0xCC) 2) (Z.shiftl (Z.land x 0x33) 2)) in
  let x := cast uint8_t (Z.lor (Z.shiftr (Z.land x 0xF0) 4) (Z.shiftl (Z.land x 0x0F) 4)) in
  x.

(** [reverse_bits(uint16_t)]. *)
Definition reverse_bits16 (x : Z) : Z :=
  cast uint16_t
    (Z.lor (Z.shiftl (reverse_bits8 (cast uint8_t (Z.land x 0xFF))) 8)
           (reverse_bits8 (cast uint8_t (Z.land (Z.shiftr x 8) 0xFF)))).

(** [reverse_bits(uint32_t)]; the [uint16_t] halves are promoted to [int], so
    the result is taken modulo [2^32] by the [return]. *)
Definition reverse_bits32 (x : Z) : Z :=
  cast uint32_t
    (Z.lor (Z.shiftl (reverse_bits16 (cast uint16_t (Z.land x 0xFFFF))) 16)
           (reverse_bits16 (cast uint16_t (Z.land (Z.shiftr x 16) 0xFFFF)))).

(** [__BYTE_ORDER__] of the target. *)
Inductive byte_order : Set := LittleEndian | BigEndian.

(** [convert_big_endian<T>(val)], the preprocessor branch being chosen by the
    host byte order. *)
Definition convert_big_endian (host : byte_order) (T : uint_t) (val : Z) : Z :=
  match host with
  | LittleEndian => byteswap T val
  | BigEndian => val
  end.

(** ** Big-endian byte sequences

    The mathematical reading of a byte sequence whose index 0 is the most
    significant byte; the loops of [encode_value] and [decode_value] are
    compared with these. *)

(** Big-endian value of a byte list, by Horner's rule. *)
Definition be_value (bs : list Z) : Z := fold_left (fun v b => v * 256 + b) bs 0.

(** The [n] low bytes of [x], most significant first. *)
Fixpoint be_bytes (n : nat) (x : Z) : list Z :=
  match n with
  | O => []
  | S n' => be_bytes n' (x / 256) ++ [x mod 256]
  end.

(** The value of an object of an unsigned type whose storage holds the bytes
    [mem], lowest address first ([reinterpret_cast<uint8_t *>(&val)]). *)
Definition object_value (host : byte_order) (mem : list Z) : Z :=
  match host with
  | BigEndian => be_value mem
  | LittleEndian => be_value (rev mem)
  end.

(** ** Parsing (helpers.h:439-488) *)

(** Modelled from the spec: which characters the buffer form of [parse_hex]
    takes as hexadecimal digits is decided in helpers.cpp, which is not among
    the sources.  The spec speaks of hexadecimal digits with lowercase as the
    canonical form; both cases are taken as digits here. *)
Definition hex_digit (c : ascii) : option Z :=
  let n := Z.of_nat (nat_of_ascii c) in
  if (48 <=? n) && (n <=? 57) then Some (n - 48)
  else if (97 <=? n) && (n <=? 102) then Some (n - 97 + 10)
  else if (65 <=? n) && (n <=? 70) then Some (n - 65 + 10)
  else None.

(** Modelled from the spec: storing the digit [v] at nibble position [i] of
    the output buffer (position [2*j] is the high half of byte [j]).  Part of
    the missing body of the buffer form of [parse_hex]. *)
Definition write_nibble (data : list Z) (i : nat) (v : Z) : list Z :=
  if Nat.even i
  then array_set data (i / 2) (Z.shiftl v 4)
  else array_set data (i / 2) (Z.lor (byte_at data (i / 2)) v).

(** Modelled from the spec: the digit loop of the buffer form of [parse_hex]
    (helpers.cpp is missing).  Spec 4.2: parsing stops at the first
    non-hex-digit character or after [chars] characters, whichever comes
    first, and the number of source characters actually consumed is
    returned.  The end of [str] is its terminator, which is no digit. *)
Fixpoint parse_hex_digits (str : string) (chars i : nat) (data : list Z)
  : nat * list Z :=
  match chars, str with
  | S chars', String c str' =>
      match hex_digit c with
      | Some v =>
          let '(n, data') :=
            parse_hex_digits str' chars' (S i) (write_nibble data i v) in
          (S n, data')
      | None => (O, data)
      end
  | _, _ => (O, data)
  end.

(** Modelled from the spec: the buffer form
    [parse_hex(str, len, data, count)], declared at helpers.h:450 and defined
    in helpers.cpp, which is missing.  Spec 4.2: up to [2*count] digits are
    parsed, at most [len] characters are examined; when [len < 2*count] the
    value is written as though [str] had been left-padded with '0' to
    [2*count] characters, so the digits occupy the tail of [data], the
    padding digit that shares a byte with the first character counts as a
    parsed '0', and bytes made of padding only are left alone.  Returns the
    number of characters consumed and the buffer. *)
Definition parse_hex (str : string) (len : nat) (data : list Z) (count : nat)
  : nat * list Z :=
  let chars := Nat.min len (2 * count) in
  let pad := (2 * count - chars)%nat in
  let data0 := if Nat.odd pad then array_set data (pad / 2) 0 else data in
  parse_hex_digits str chars pad data0.

(** [strlen(str)]: the characters before the first NUL. *)
Fixpoint strlen (str : string) : nat :=
  match str with
  | EmptyString => O
  | String c str' => if Ascii.eqb c zero then O else S (strlen str')
  end.

(** [bool parse_hex(const char *str, uint8_t *data, size_t count)]
    (helpers.h:452): the answer and the buffer after the call. *)
Definition parse_hex_cstr (str : string) (data : list Z) (count : nat)
  : bool * list Z :=
  let '(n, data') := parse_hex str (strlen str) data count in
  ((n =? 2 * count)%nat, data').

(** [bool parse_hex(const std::string &str, uint8_t *data, size_t count)]
    (helpers.h:456). *)
Definition parse_hex_string (str : string) (data : list Z) (count : nat)
  : bool * list Z :=
  let '(n, data') := parse_hex str (String.length str) data count in
  ((n =? 2 * count)%nat, data').

(** [optional<T> parse_hex<T>(const char *str, size_t len)] (helpers.h:474).
    [T val = 0] is [sizeof(T)] zero bytes; the second operand of [||] is only
    evaluated when the first is false. *)
Definition parse_hex_uint (host : byte_order) (T : uint_t) (str : string)
    (len : nat) : option Z :=
  let val := repeat 0 (sizeof T) in
  if (2 * sizeof T <? len)%nat then None
  else
    let '(n, val') := parse_hex str len val (sizeof T) in
    if (n =? 0)%nat then None
    else Some (convert_big_endian host T (object_value host val')).

Section TypedParse.

(** The buffer form [parse_hex(str, len, data, count)] that the typed form
    calls, as a parameter: helpers.h:450 declares it, its body is not among
    the sources. *)
Variable buffer_form : string -> nat -> list Z -> nat -> nat * list Z.

(** [optional<T> parse_hex<T>(const char *str, size_t len)] (helpers.h:474)
    over that buffer form; [parse_hex_uint] is this function at the buffer
    form modelled above. *)
Definition parse_hex_uint_with (host : byte_order) (T : uint_t) (str : string)
    (len : nat) : option Z :=
  let val := repeat 0 (sizeof T) in
  if (2 * sizeof T <? len)%nat then None
  else
    let '(n, val') := buffer_form str len val (sizeof T) in
    if (n =? 0)%nat then None
    else Some (convert_big_endian host T (object_value host val')).

End TypedParse.

(** [parse_hex<T>(const char *str)] and [parse_hex<T>(const std::string &)]
    (helpers.h:482-488). *)
Definition parse_hex_uint_cstr (host : byte_order) (T : uint_t) (str : string)
  : option Z := parse_hex_uint host T str (strlen str).

Definition parse_hex_uint_string (host : byte_order) (T : uint_t)
    (str : string) : option Z := parse_hex_uint host T str (String.length str).

(** ** Memory management (helpers.h:525-563) *)

Module ExternalRAMAllocator.

(** [enum Flags]. *)
Definition NONE : Z := 0.
Definition REFUSE_INTERNAL : Z := Z.shiftl 1 0.
Definition ALLOW_FAILURE : Z := Z.shiftl 1 1.

(** What the target provides: whether [USE_ESP32] is defined, the width of
    [size_t], and the answers of [heap_caps_malloc(size, MALLOC_CAP_SPIRAM)]
    and [malloc(size)] ([None] is [nullptr]). *)
Record platform : Type := {
  USE_ESP32 : bool;
  size_t_bits : Z;
  heap_caps_malloc : Z -> option Z;
  malloc : Z -> option Z
}.

(** The pool requests a call makes, in order. *)
Inductive request : Set :=
| ExternalRAM (size : Z)
| InternalHeap (size : Z).

(** How a call to [allocate] ends. *)
Inductive outcome : Set :=
| Returns (ptr : option Z)
| Aborts.

Definition is_null (ptr : option Z) : bool :=
  match ptr with None => true | Some _ => false end.

(** [T *allocate(size_t n)] for an element type of size [sizeof_T]. *)
Definition allocate (pf : platform) (flags_ : Z) (sizeof_T : Z) (n : Z)
  : list request * outcome :=
  let size := (n * sizeof_T) mod 2 ^ size_t_bits pf in
  let '(log, ptr) :=
    if USE_ESP32 pf
    then ([ExternalRAM size], heap_caps_malloc pf size)
    else ([], None) in
  let '(log, ptr) :=
    if is_null ptr && (Z.land flags_ REFUSE_INTERNAL =? 0)
    then (log ++ [InternalHeap size], malloc pf size)
    else (log, ptr) in
  if is_null ptr && (Z.land flags_ ALLOW_FAILURE =? 0)
  then (log, Aborts)
  else (log, Returns ptr).

(** The plain heap allocator of the spec's words ("a primary-heap
    allocation with the same failure policy"): one [malloc], then the
    [AllowFailure] policy.  Not in the source; [allocate] is compared with
    it. *)
Definition heap_allocate_spec (pf : platform) (flags_ : Z) (sizeof_T : Z)
    (n : Z) : list request * outcome :=
  let size := (n * sizeof_T) mod 2 ^ size_t_bits pf in
  let ptr := malloc pf size in
  if is_null ptr && (Z.land flags_ ALLOW_FAILURE =? 0)
  then ([InternalHeap size], Aborts)
  else ([InternalHeap size], Returns ptr).

End ExternalRAMAllocator.

(** ** Auxiliary notions used by the statements *)

(** The number of leading hexadecimal digits of [str]. *)
Fixpoint hex_run (str : string) : nat :=
  match str with
  | EmptyString => O
  | String c str' =>
      match hex_digit c with
      | Some _ => S (hex_run str')
      | None => O
      end
  end.

(** [str] begins with [n] hexadecimal digits: none of the first [n]
    positions is past the end or holds another character. *)
Definition starts_with_hex_digits (str : string) (n : nat) : Prop :=
  forall i, (i < n)%nat ->
    exists c v, String.get i str = Some c /\ hex_digit c = Some v.

(** [n] characters '0'. *)
Fixpoint zeros (n : nat) : string :=
  match n with
  | O => EmptyString
  | S n' => String "0" (zeros n')
  end.

(** The buffer after the digit 0 has been stored at the [p] nibble
    positions from [i] on. *)
Definition pad_writes (p i : nat) (d : list Z) : list Z :=
  fold_left (fun d j => write_nibble d j 0) (seq i p) d.

(** A target without external RAM whose heap can serve the request. *)
Definition esp8266_with_free_heap : ExternalRAMAllocator.platform :=
  {| ExternalRAMAllocator.USE_ESP32 := false;
     ExternalRAMAllocator.size_t_bits := 32;
     ExternalRAMAllocator.heap_caps_malloc := fun _ => None;
     ExternalRAMAllocator.malloc := fun _ => Some 0x3FFE8000 |}.

(** A target with external RAM where both pools are exhausted. *)
Definition esp32_out_of_memory : ExternalRAMAllocator.platform :=
  {| ExternalRAMAllocator.USE_ESP32 := true;
     ExternalRAMAllocator.size_t_bits := 32;
     ExternalRAMAllocator.heap_caps_malloc := fun _ => None;
     ExternalRAMAllocator.malloc := fun _ => None |}.

(** ** Further functions of helpers.h *)

(** *** CallbackManager (helpers.h:174-187)

    A callback acts on the state of the program; an empty [std::function]
    is [None], and calling it leaves the loop ([std::bad_function_call]). *)

Module CallbackManager.

Section Def.

Variable Ts : Type.
Variable World : Type.

Definition callback : Type := option (Ts -> World -> World).

(** [void add(std::function<void(Ts...)> &&callback)]: [push_back]. *)
Definition add (callbacks_ : list callback) (cb : callback) : list callback :=
  callbacks_ ++ [cb].

(** How [call] ends, and the state it leaves. *)
Inductive outcome : Type :=
| Returned (w : World)
| BadFunctionCall (w : World).

(** [void call(Ts... args)]: [for (auto &cb : this->callbacks_) cb(args...)]. *)
Fixpoint call (callbacks_ : list callback) (args : Ts) (w : World) : outcome :=
  match callbacks_ with
  | [] => Returned w
  | Some cb :: rest => call rest args (cb args w)
  | None :: _ => BadFunctionCall w
  end.

End Def.

Arguments add {Ts World} callbacks_ cb.
Arguments call {Ts World} callbacks_ args w.
Arguments Returned {World} w.
Arguments BadFunctionCall {World} w.

End CallbackManager.

(** *** Deduplicator (helpers.h:202-218) *)

Module Deduplicator.

Section Def.

Variable T : Type.

(** [operator==] of [T]. *)
Variable T_eq : T -> T -> bool.

(** [T{}], the value-initialised [T]. *)
Variable T_init : T.

Record t : Type := {
  has_value_ : bool;
  last_value_ : T
}.

(** The members' default initialisers. *)
Definition init : t := {| has_value_ := false; last_value_ := T_init |}.

(** [bool next(T value)]: the answer and the object after the call. *)
Definition next (this : t) (value : T) : bool * t :=
  if has_value_ this
  then
    if T_eq (last_value_ this) value
    then (false, this)
    else (true, {| has_value_ := true; last_value_ := value |})
  else (true, {| has_value_ := true; last_value_ := value |}).

(** [bool has_value() const]. *)
Definition has_value (this : t) : bool := has_value_ this.

(** [next] on each value of a sequence in turn: the values it answered
    true for, and the object at the end. *)
Fixpoint next_all (this : t) (values : list T) : list T * t :=
  match values with
  | [] => ([], this)
  | value :: rest =>
      let '(answer, this') := next this value in
      let '(kept, final) := next_all this' rest in
      (if answer then value :: kept else kept, final)
  end.

End Def.

Arguments has_value_ {T} _.
Arguments last_value_ {T} _.
Arguments init {T} T_init.
Arguments next {T} T_eq this value.
Arguments has_value {T} this.
Arguments next_all {T} T_eq this values.

End Deduplicator.

(** *** std::clamp backport (helpers.h:269-274)

    The [#else] branch, compiled where the library has no [std::clamp];
    where it has one (helpers.h:266-267), [clamp] is [std::clamp], which
    agrees with this one whenever [hi] is not below [lo] and has no defined
    result otherwise. *)

Section ClampDef.

Variable T : Type.

(** [clamp(v, lo, hi, comp)]. *)
Definition clamp_comp (v lo hi : T) (comp : T -> T -> bool) : T :=
  if comp v lo then lo else if comp hi v then hi else v.

(** [clamp(v, lo, hi)], with [less] for [std::less<T>]. *)
Definition clamp (less : T -> T -> bool) (v lo hi : T) : T :=
  clamp_comp v lo hi less.

End ClampDef.

Arguments clamp_comp {T} v lo hi comp.
Arguments clamp {T} less v lo hi.

(** *** Typed formatting (helpers.h:495-508) *)

(** The storage of an object of type [T] holding [val], lowest address
    first. *)
Definition object_bytes (host : byte_order) (T : uint_t) (val : Z) : list Z :=
  match host with
  | BigEndian => be_bytes (sizeof T) val
  | LittleEndian => rev (be_bytes (sizeof T) val)
  end.

Section FormatDef.

(** [format_hex(const uint8_t *data, size_t length)] and
    [format_hex_pretty(const uint8_t *data, size_t length)] are defined in
    helpers.cpp, which is not among the sources; they are parameters,
    applied to the [length] bytes at [data]. *)
Variable format_hex : list Z -> string.
Variable format_hex_pretty : list Z -> string.

(** [std::string format_hex(T val)] (helpers.h:495). *)
Definition format_hex_uint (host : byte_order) (T : uint_t) (val : Z) : string :=
  let val := convert_big_endian host T val in
  format_hex (firstn (sizeof T) (object_bytes host T val)).

(** [std::string format_hex_pretty(T val)] (helpers.h:505). *)
Definition format_hex_pretty_uint (host : byte_order) (T : uint_t) (val : Z)
  : string :=
  let val := convert_big_endian host T val in
  format_hex_pretty (firstn (sizeof T) (object_bytes host T val)).

End FormatDef.

(** *** parse_hex into a vector (helpers.h:460-468) *)

(** [data.resize(count)]: truncates, or appends zero bytes. *)
Definition vector_resize (data : list Z) (count : nat) : list Z :=
  firstn count data ++ repeat 0 (count - length data).

(** [bool parse_hex(const char *str, std::vector<uint8_t> &data, size_t count)]. *)
Definition parse_hex_cstr_vector (str : string) (data : list Z) (count : nat)
  : bool * list Z :=
  let data := vector_resize data count in
  let '(n, data') := parse_hex str (strlen str) data count in
  ((n =? 2 * count)%nat, data').

(** [bool parse_hex(const std::string &str, std::vector<uint8_t> &data, size_t count)]. *)
Definition parse_hex_string_vector (str : string) (data : list Z) (count : nat)
  : bool * list Z :=
  let data := vector_resize data count in
  let '(n, data') := parse_hex str (String.length str) data count in
  ((n =? 2 * count)%nat, data').

(** *** remap (helpers.h:516-518) *)

(** [int] has 32 bits on the targets. *)
Definition INT_MIN : Z := - 2 ^ 31.
Definition INT_MAX : Z := 2 ^ 31 - 1.

Definition is_int (x : Z) : bool := (INT_MIN <=? x) && (x <=? INT_MAX).

(** [remap<T, U>(value, min, max, min_out, max_out)] where [T] and [U] are
    among [uint8_t] and [uint16_t]: every operand is promoted to [int], the
    division truncates towards zero and the [return] converts to [T].
    [None] where the expression has no defined value (signed overflow,
    division by zero). *)
Definition remap (T : uint_t) (value min max min_out max_out : Z) : option Z :=
  let product := (value - min) * (max_out - min_out) in
  let range := max - min in
  if negb (is_int product) then None
  else if range =? 0 then None
  else
    let result := Z.quot product range + min_out in
    if negb (is_int result) then None else Some (cast T result).

(** *** Orders on byte sequences *)

(** Lexicographic comparison of two byte sequences ([memcmp]). *)
Fixpoint lex_compare (a b : list Z) : comparison :=
  match a, b with
  | [], [] => Eq
  | [], _ :: _ => Lt
  | _ :: _, [] => Gt
  | x :: a', y :: b' =>
      match x ?= y with
      | Eq => lex_compare a' b'
      | c => c
      end
  end.

(** ** Tactics *)

(** Equalities of bit-level expressions, bit by bit: [bits_rewrite] pushes
    [Z.testbit] to the leaves, [bits_cases] splits on the position of the
    bit and drops the impossible ranges at once. *)
Ltac bits_rewrite :=
  repeat (rewrite Z.testbit_0_l || rewrite Z.lor_spec || rewrite Z.land_spec
          || rewrite Z.shiftl_spec' || rewrite Z.shiftr_spec'
          || rewrite Z.testbit_ones_nonneg' by lia
          || rewrite Z.testbit_mod_pow2 by lia).

Ltac bits_cases :=
  repeat match goal with
         | |- context [ ?a <? ?b ] => destruct (Z.ltb_spec a b); try (exfalso; lia)
         end.

Ltac bitblast :=
  eapply Z.bits_inj'; intros ?i ?Hi; bits_rewrite; bits_cases;
  rewrite ?Z.testbit_neg_r by lia;
  Z.discover_equal_testbit_indices; try btauto.

(** * Properties *)

Section Arith.

Lemma cast_in_range T x : in_range T (cast T x).
Proof.
  unfold in_range, cast. apply Z.mod_pos_bound.
  apply Z.pow_pos_nonneg; [lia | destruct T; discriminate].
Qed.

Lemma cast_small T x : in_range T x -> cast T x = x.
Proof. unfold in_range, cast. intros. now apply Z.mod_small. Qed.

Lemma is_byte_in_range b : is_byte b <-> in_range uint8_t b.
Proof. unfold is_byte, in_range. change (2 ^ bits uint8_t) with 256. tauto. Qed.

(** Or-ing a value below [2^n] into a value shifted left by [n] adds them. *)
Lemma lor_shiftl_add hi lo n :
  0 <= n -> 0 <= lo < 2 ^ n -> Z.lor (Z.shiftl hi n) lo = hi * 2 ^ n + lo.
Proof.
  intros Hn Hlo.
  rewrite <- (Z.mod_small lo (2 ^ n)) at 1 by lia.
  rewrite <- Z.land_ones by lia.
  rewrite Z.or_to_plus.
  - rewrite Z.shiftl_mul_pow2, Z.land_ones, Z.mod_small by lia. reflexivity.
  - bitblast.
Qed.

Lemma land_255 x : Z.land x 0xFF = x mod 256.
Proof. change 0xFF with (Z.ones 8). now rewrite Z.land_ones by lia. Qed.

Lemma shiftr_8 x : Z.shiftr x 8 = x / 256.
Proof. now rewrite Z.shiftr_div_pow2 by lia. Qed.

End Arith.

Section BigEndian.

Lemma be_value_snoc l b : be_value (l ++ [b]) = be_value l * 256 + b.
Proof. unfold be_value. now rewrite fold_left_app. Qed.

Lemma be_value_range l :
  Forall is_byte l -> 0 <= be_value l < 256 ^ Z.of_nat (length l).
Proof.
  induction l as [|b l IH] using rev_ind; intros Hl.
  - cbn. lia.
  - apply Forall_app in Hl as [Hl Hb]. inversion_clear Hb as [|? ? Hb' _].
    specialize (IH Hl). unfold is_byte in Hb'.
    rewrite be_value_snoc, length_app, Nat.add_1_r, Nat2Z.inj_succ, Z.pow_succ_r by lia.
    lia.
Qed.

Lemma length_be_bytes n x : length (be_bytes n x) = n.
Proof.
  revert x; induction n as [|n IH]; intros x; cbn [be_bytes]; [reflexivity|].
  rewrite length_app, IH. cbn. lia.
Qed.

Lemma be_bytes_is_byte n x : Forall is_byte (be_bytes n x).
Proof.
  revert x; induction n as [|n IH]; intros x; cbn [be_bytes]; [constructor|].
  apply Forall_app; split; [apply IH|].
  constructor; [|constructor]. unfold is_byte. apply Z.mod_pos_bound. lia.
Qed.

Lemma be_bytes_be_value bs :
  Forall is_byte bs -> be_bytes (length bs) (be_value bs) = bs.
Proof.
  induction bs as [|b l IH] using rev_ind; intros Hl; [reflexivity|].
  apply Forall_app in Hl as [Hl Hb]. inversion_clear Hb as [|? ? Hb' _].
  unfold is_byte in Hb'.
  rewrite length_app, Nat.add_1_r, be_value_snoc. cbn [be_bytes].
  replace ((be_value l * 256 + b) / 256) with (be_value l)
    by (Z.div_mod_to_equations; lia).
  replace ((be_value l * 256 + b) mod 256) with b
    by (Z.div_mod_to_equations; lia).
  now rewrite IH.
Qed.

Lemma be_value_be_bytes n x : be_value (be_bytes n x) = x mod 256 ^ Z.of_nat n.
Proof.
  revert x; induction n as [|n IH]; intros x.
  - cbn. now rewrite Z.mod_1_r.
  - cbn [be_bytes]. rewrite be_value_snoc, IH, Nat2Z.inj_succ, Z.pow_succ_r by lia.
    rewrite (Z.rem_mul_r x 256 (256 ^ Z.of_nat n)) by lia. lia.
Qed.

End BigEndian.

Section EncodeDecode.

Variable T : uint_t.

Lemma pow_bits : 2 ^ bits T = 256 ^ Z.of_nat (sizeof T).
Proof. destruct T; reflexivity. Qed.

(** Without overflow, an iteration of [encode_value] is a Horner step. *)
Lemma encode_step_horner bytes val i :
  0 <= val -> val * 256 + 255 < 2 ^ bits T -> is_byte (byte_at bytes i) ->
  encode_step T bytes val i = val * 256 + byte_at bytes i.
Proof.
  unfold encode_step, is_byte. intros Hv Hlt Hb.
  rewrite (cast_small T (Z.shiftl val 8))
    by (unfold in_range; rewrite Z.shiftl_mul_pow2 by lia; lia).
  rewrite lor_shiftl_add by (change (2 ^ 8) with 256; lia).
  change (2 ^ 8) with 256. apply cast_small. unfold in_range. lia.
Qed.

Lemma firstn_snoc_nth (l : list Z) n :
  (n < length l)%nat -> firstn (S n) l = firstn n l ++ [nth n l 0].
Proof.
  revert l; induction n as [|n IH]; intros [|x l] Hn; cbn in Hn; try lia.
  - reflexivity.
  - cbn [firstn nth app]. rewrite <- IH by lia. reflexivity.
Qed.

(** The first [n] iterations of the loop of [encode_value]. *)
Lemma encode_value_loop bytes n :
  Forall is_byte bytes -> (n <= sizeof T)%nat -> (n <= length bytes)%nat ->
  fold_left (encode_step T bytes) (seq 0 n) 0 = be_value (firstn n bytes).
Proof.
  intros Hb. induction n as [|n IH]; intros HnT Hn; [reflexivity|].
  rewrite seq_S, fold_left_app, IH by lia. cbn [fold_left Nat.add].
  assert (Hf : Forall is_byte (firstn n bytes)).
  { pose proof Hb as Hb'. rewrite <- (firstn_skipn n bytes) in Hb'.
    now apply Forall_app in Hb'. }
  pose proof (be_value_range _ Hf) as Hr. rewrite length_firstn, Nat.min_l in Hr by lia.
  assert (Hn' : is_byte (byte_at bytes n)).
  { unfold byte_at. eapply Forall_forall; [exact Hb|]. apply nth_In. lia. }
  rewrite encode_step_horner; trivial; try lia.
  - rewrite firstn_snoc_nth, be_value_snoc by lia. reflexivity.
  - rewrite pow_bits.
    assert (256 * 256 ^ Z.of_nat n <= 256 ^ Z.of_nat (sizeof T)).
    { rewrite <- Z.pow_succ_r, <- Nat2Z.inj_succ by lia.
      apply Z.pow_le_mono_r; lia. }
    lia.
Qed.

Lemma encode_value_be bytes :
  Forall is_byte bytes -> length bytes = sizeof T ->
  encode_value T bytes = be_value bytes.
Proof.
  intros Hb Hl. unfold encode_value.
  rewrite encode_value_loop by (trivial; lia).
  now rewrite <- Hl, firstn_all.
Qed.

Lemma decode_value_be val : decode_value T val = be_bytes (sizeof T) val.
Proof.
  destruct T;
    cbv [decode_value sizeof seq rev app fold_left decode_step array_set
         repeat Nat.sub fst be_bytes];
    rewrite ?shiftr_8, ?land_255; reflexivity.
Qed.

End EncodeDecode.

Section Byteswap.

Lemma be_bytes_shape n x :
  be_bytes (S n) x = be_bytes n (Z.shiftr x 8) ++ [Z.land x 0xFF].
Proof. now rewrite shiftr_8, land_255. Qed.

Ltac byte_goals :=
  rewrite !be_bytes_shape; cbv [be_bytes rev app]; rewrite ?Z.shiftr_shiftr by lia;
  cbv [Z.add Pos.add Pos.succ Pos.add_carry]; change 0xFF with (Z.ones 8);
  repeat (apply f_equal2; [solve [bitblast] |]).

Lemma bswap16_bytes x : be_bytes 2 (bswap16 x) = rev (be_bytes 2 x).
Proof. unfold bswap16. byte_goals. reflexivity. Qed.

Lemma bswap32_bytes x : be_bytes 4 (bswap32 x) = rev (be_bytes 4 x).
Proof. unfold bswap32. byte_goals. reflexivity. Qed.

Lemma bswap64_bytes x : be_bytes 8 (bswap64 x) = rev (be_bytes 8 x).
Proof. unfold bswap64. byte_goals. reflexivity. Qed.


Lemma lor_in_range T a b :
  in_range T a -> in_range T b -> in_range T (Z.lor a b).
Proof.
  unfold in_range. intros Ha Hb.
  assert (Hbits : 0 <= bits T) by (destruct T; discriminate).
  rewrite <- (Z.mod_small a (2 ^ bits T)), <- (Z.mod_small b (2 ^ bits T)) by lia.
  rewrite <- !Z.land_ones, <- Z.land_lor_distr_l, Z.land_ones by lia.
  apply Z.mod_pos_bound. lia.
Qed.

Lemma byte_shiftl_in_range T y k :
  0 <= k -> k + 8 <= bits T -> in_range T (Z.shiftl (Z.land y 0xFF) k).
Proof.
  intros Hk Hle. unfold in_range.
  rewrite land_255, Z.shiftl_mul_pow2 by lia.
  pose proof (Z.mod_pos_bound y 256 ltac:(lia)) as Hy.
  assert (Hp : 0 < 2 ^ k) by (apply Z.pow_pos_nonneg; lia).
  assert (Hq : 256 * 2 ^ k <= 2 ^ bits T).
  { change 256 with (2 ^ 8). rewrite <- Z.pow_add_r by lia.
    apply Z.pow_le_mono_r; lia. }
  nia.
Qed.

Lemma byteswap_in_range T x : in_range T x -> in_range T (byteswap T x).
Proof.
  intros Hx. destruct T; cbn [byteswap]; trivial;
    unfold bswap16, bswap32, bswap64;
    repeat apply lor_in_range;
    try (apply byte_shiftl_in_range; cbv; intuition discriminate);
    match goal with
    | |- in_range _ (Z.land ?a 0xFF) =>
        change (Z.land a 0xFF) with (Z.shiftl (Z.land a 0xFF) 0);
        apply byte_shiftl_in_range; cbv; intuition discriminate
    end.
Qed.

Lemma byteswap_bytes T x :
  be_bytes (sizeof T) (byteswap T x) = rev (be_bytes (sizeof T) x).
Proof.
  destruct T; cbn [byteswap sizeof].
  - reflexivity.
  - apply bswap16_bytes.
  - apply bswap32_bytes.
  - apply bswap64_bytes.
Qed.

(** A value in range is the big-endian value of its bytes. *)
Lemma be_value_be_bytes_in_range T x :
  in_range T x -> be_value (be_bytes (sizeof T) x) = x.
Proof.
  intros Hx. rewrite be_value_be_bytes, <- pow_bits. now apply Z.mod_small.
Qed.

Lemma be_bytes_inj T x y :
  in_range T x -> in_range T y ->
  be_bytes (sizeof T) x = be_bytes (sizeof T) y -> x = y.
Proof.
  intros Hx Hy E. apply (f_equal be_value) in E.
  now rewrite !be_value_be_bytes_in_range in E.
Qed.

Lemma byteswap_byteswap T x : in_range T x -> byteswap T (byteswap T x) = x.
Proof.
  intros Hx. apply (be_bytes_inj T); trivial.
  - now do 2 apply byteswap_in_range.
  - now rewrite !byteswap_bytes, rev_involutive.
Qed.

(** Reading an object in host order and converting gives the big-endian
    value of its storage, whatever the host order. *)
Lemma convert_big_endian_object host T mem :
  Forall is_byte mem -> length mem = sizeof T ->
  convert_big_endian host T (object_value host mem) = be_value mem.
Proof.
  intros Hb Hl. destruct host; cbn [convert_big_endian object_value]; trivial.
  assert (Hr : Forall is_byte (rev mem)) by now apply Forall_rev.
  assert (Hlr : length (rev mem) = sizeof T) by now rewrite length_rev.
  pose proof (be_value_range _ Hr) as Hrange.
  rewrite Hlr, <- pow_bits in Hrange.
  pose proof (be_value_range _ Hb) as Hrange'.
  rewrite Hl, <- pow_bits in Hrange'.
  apply (be_bytes_inj T); trivial.
  - now apply byteswap_in_range.
  - rewrite byteswap_bytes.
    replace (be_bytes (sizeof T) (be_value (rev mem))) with (rev mem)
      by (rewrite <- Hlr; symmetry; now apply be_bytes_be_value).
    replace (be_bytes (sizeof T) (be_value mem)) with mem
      by (rewrite <- Hl; symmetry; now apply be_bytes_be_value).
    apply rev_involutive.
Qed.

End Byteswap.

Section ReverseBits.

(** A boolean property checked on the 256 bytes holds of every byte. *)
Lemma byte_exhaustive (f : Z -> bool) :
  forallb (fun n => f (Z.of_nat n)) (seq 0 256) = true ->
  forall x, is_byte x -> f x = true.
Proof.
  intros Hall x Hx. unfold is_byte in Hx.
  rewrite forallb_forall in Hall.
  rewrite <- (Z2Nat.id x) by lia. apply Hall, in_seq. lia.
Qed.

Lemma reverse_bits8_involutive x : is_byte x -> reverse_bits8 (reverse_bits8 x) = x.
Proof.
  intros Hx. apply Z.eqb_eq.
  apply (byte_exhaustive (fun x => reverse_bits8 (reverse_bits8 x) =? x));
    [vm_compute; reflexivity | exact Hx].
Qed.

(** [reverse_bits8] mirrors the eight bits. *)
Lemma reverse_bits8_testbit x i :
  is_byte x -> 0 <= i < 8 -> Z.testbit (reverse_bits8 x) i = Z.testbit x (7 - i).
Proof.
  intros Hx Hi.
  pose proof (byte_exhaustive
    (fun x => forallb (fun i => Bool.eqb (Z.testbit (reverse_bits8 x) (Z.of_nat i))
                                        (Z.testbit x (7 - Z.of_nat i))) (seq 0 8))) as H.
  cbv beta in H. specialize (H ltac:(vm_compute; reflexivity) x Hx).
  rewrite forallb_forall in H. specialize (H (Z.to_nat i)).
  rewrite Z2Nat.id in H by lia. apply Bool.eqb_prop, H, in_seq. lia.
Qed.

Lemma reverse_bits8_is_byte x : is_byte (reverse_bits8 x).
Proof.
  unfold reverse_bits8. cbv zeta. apply is_byte_in_range, cast_in_range.
Qed.

Lemma reverse_bits16_eq x :
  reverse_bits16 x =
  reverse_bits8 (x mod 256) * 256 + reverse_bits8 ((x / 256) mod 256).
Proof.
  unfold reverse_bits16.
  rewrite shiftr_8, !land_255.
  assert (Hc : forall y, cast uint8_t (y mod 256) = y mod 256).
  { intros y. apply cast_small. unfold in_range. change (2 ^ bits uint8_t) with 256.
    apply Z.mod_pos_bound. lia. }
  rewrite !Hc.
  pose proof (reverse_bits8_is_byte (x mod 256)) as Ha.
  pose proof (reverse_bits8_is_byte ((x / 256) mod 256)) as Hb.
  unfold is_byte in Ha, Hb.
  rewrite lor_shiftl_add by (change (2 ^ 8) with 256; lia).
  change (2 ^ 8) with 256. apply cast_small. unfold in_range.
  change (2 ^ bits uint16_t) with 65536. lia.
Qed.

Lemma reverse_bits16_in_range x : in_range uint16_t (reverse_bits16 x).
Proof. apply cast_in_range. Qed.

Lemma reverse_bits16_involutive x :
  in_range uint16_t x -> reverse_bits16 (reverse_bits16 x) = x.
Proof.
  unfold in_range. change (2 ^ bits uint16_t) with 65536. intros Hx.
  rewrite (reverse_bits16_eq (reverse_bits16 x)), (reverse_bits16_eq x).
  pose proof (reverse_bits8_is_byte (x mod 256)) as Ha.
  pose proof (reverse_bits8_is_byte ((x / 256) mod 256)) as Hb.
  set (A := reverse_bits8 (x mod 256)) in *.
  set (B := reverse_bits8 ((x / 256) mod 256)) in *.
  unfold is_byte in Ha, Hb.
  replace ((A * 256 + B) mod 256) with B by (Z.div_mod_to_equations; lia).
  replace (((A * 256 + B) / 256) mod 256) with A by (Z.div_mod_to_equations; lia).
  subst A B.
  rewrite !reverse_bits8_involutive
    by (unfold is_byte; apply Z.mod_pos_bound; lia).
  Z.div_mod_to_equations; lia.
Qed.

Lemma reverse_bits16_bytes x :
  be_bytes 2 (reverse_bits16 x) = rev (map reverse_bits8 (be_bytes 2 x)).
Proof.
  rewrite reverse_bits16_eq.
  pose proof (reverse_bits8_is_byte (x mod 256)) as Ha.
  pose proof (reverse_bits8_is_byte ((x / 256) mod 256)) as Hb.
  set (A := reverse_bits8 (x mod 256)) in *.
  set (B := reverse_bits8 ((x / 256) mod 256)) in *.
  unfold is_byte in Ha, Hb. cbv [be_bytes app map rev].
  replace ((A * 256 + B) mod 256) with B by (Z.div_mod_to_equations; lia).
  replace (((A * 256 + B) / 256) mod 256) with A by (Z.div_mod_to_equations; lia).
  reflexivity.
Qed.

Lemma reverse_bits32_eq x :
  reverse_bits32 x =
  reverse_bits16 (x mod 65536) * 65536 + reverse_bits16 ((x / 65536) mod 65536).
Proof.
  unfold reverse_bits32.
  change 0xFFFF with (Z.ones 16).
  rewrite Z.shiftr_div_pow2, !Z.land_ones by lia. change (2 ^ 16) with 65536.
  assert (Hc : forall y, cast uint16_t (y mod 65536) = y mod 65536).
  { intros y. apply cast_small. unfold in_range. change (2 ^ bits uint16_t) with 65536.
    apply Z.mod_pos_bound. lia. }
  rewrite !Hc.
  pose proof (reverse_bits16_in_range (x mod 65536)) as Ha.
  pose proof (reverse_bits16_in_range ((x / 65536) mod 65536)) as Hb.
  unfold in_range in Ha, Hb. change (2 ^ bits uint16_t) with 65536 in *.
  rewrite lor_shiftl_add by (change (2 ^ 16) with 65536; lia).
  change (2 ^ 16) with 65536. apply cast_small. unfold in_range.
  change (2 ^ bits uint32_t) with 4294967296. lia.
Qed.

Lemma reverse_bits32_involutive x :
  in_range uint32_t x -> reverse_bits32 (reverse_bits32 x) = x.
Proof.
  unfold in_range. change (2 ^ bits uint32_t) with 4294967296. intros Hx.
  rewrite (reverse_bits32_eq (reverse_bits32 x)), (reverse_bits32_eq x).
  pose proof (reverse_bits16_in_range (x mod 65536)) as Ha.
  pose proof (reverse_bits16_in_range ((x / 65536) mod 65536)) as Hb.
  set (A := reverse_bits16 (x mod 65536)) in *.
  set (B := reverse_bits16 ((x / 65536) mod 65536)) in *.
  unfold in_range in Ha, Hb. change (2 ^ bits uint16_t) with 65536 in *.
  replace ((A * 65536 + B) mod 65536) with B by (Z.div_mod_to_equations; lia).
  replace (((A * 65536 + B) / 65536) mod 65536) with A by (Z.div_mod_to_equations; lia).
  subst A B.
  rewrite !reverse_bits16_involutive
    by (unfold in_range; change (2 ^ bits uint16_t) with 65536; apply Z.mod_pos_bound; lia).
  Z.div_mod_to_equations; lia.
Qed.

(** The four bytes of a word are the two bytes of each half. *)
Lemma be_bytes_4_split hi lo :
  0 <= lo < 65536 -> be_bytes 4 (hi * 65536 + lo) = be_bytes 2 hi ++ be_bytes 2 lo.
Proof.
  intros Hlo. cbv [be_bytes app].
  repeat (apply f_equal2; [Z.div_mod_to_equations; lia|]). reflexivity.
Qed.

Lemma reverse_bits32_bytes x :
  be_bytes 4 (reverse_bits32 x) = rev (map reverse_bits8 (be_bytes 4 x)).
Proof.
  rewrite reverse_bits32_eq.
  pose proof (reverse_bits16_in_range ((x / 65536) mod 65536)) as Hb.
  unfold in_range in Hb. change (2 ^ bits uint16_t) with 65536 in Hb.
  rewrite be_bytes_4_split, !reverse_bits16_bytes by lia.
  rewrite <- rev_app_distr, <- map_app. do 2 f_equal.
  cbv [be_bytes app].
  repeat (apply f_equal2; [Z.div_mod_to_equations; lia|]). reflexivity.
Qed.

End ReverseBits.

Section ByteOrderCodec.

Lemma lor_shiftl_8 v b : is_byte b -> Z.lor (Z.shiftl v 8) b = v * 256 + b.
Proof. intros Hb. unfold is_byte in Hb. now rewrite lor_shiftl_add by (change (2 ^ 8) with 256; lia). Qed.

Lemma is_byte_cast T b : is_byte b -> cast T b = b.
Proof.
  intros Hb. apply cast_small. unfold is_byte, in_range in *.
  assert (256 <= 2 ^ bits T) by (destruct T; discriminate). lia.
Qed.

Lemma encode_uint16_horner msb lsb :
  is_byte msb -> is_byte lsb -> encode_uint16 msb lsb = be_value [msb; lsb].
Proof.
  intros Hm Hl. unfold encode_uint16.
  rewrite (is_byte_cast _ msb), (is_byte_cast _ lsb) by trivial.
  rewrite lor_shiftl_8 by trivial. unfold is_byte in *.
  cbv [be_value fold_left]. rewrite Z.mul_0_l, Z.add_0_l.
  apply cast_small. unfold in_range. change (2 ^ bits uint16_t) with 65536. lia.
Qed.

Lemma encode_uint32_lor byte1 byte2 byte3 byte4 :
  is_byte byte1 -> is_byte byte2 -> is_byte byte3 -> is_byte byte4 ->
  encode_uint32 byte1 byte2 byte3 byte4 =
  Z.lor (Z.lor (Z.lor (Z.shiftl byte1 24) (Z.shiftl byte2 16)) (Z.shiftl byte3 8)) byte4.
Proof.
  intros H1 H2 H3 H4. unfold encode_uint32.
  rewrite (is_byte_cast _ byte1), (is_byte_cast _ byte2),
    (is_byte_cast _ byte3), (is_byte_cast _ byte4) by trivial.
  unfold is_byte in *.
  rewrite !cast_small; trivial; unfold in_range; rewrite Z.shiftl_mul_pow2 by lia;
    change (2 ^ bits uint32_t) with 4294967296; lia.
Qed.

Lemma encode_uint32_horner byte1 byte2 byte3 byte4 :
  is_byte byte1 -> is_byte byte2 -> is_byte byte3 -> is_byte byte4 ->
  encode_uint32 byte1 byte2 byte3 byte4 = be_value [byte1; byte2; byte3; byte4].
Proof.
  intros H1 H2 H3 H4. rewrite encode_uint32_lor by trivial.
  cbv [be_value fold_left]. rewrite Z.mul_0_l, Z.add_0_l.
  rewrite <- !lor_shiftl_8 by trivial.
  rewrite !Z.shiftl_lor, !Z.shiftl_shiftl by lia. reflexivity.
Qed.

End ByteOrderCodec.

(** C4: for every width in 1, 2, 4, 8 and every byte sequence [b] of that
    length, [decode_value (encode_value b) = b]; with the converse round
    trip on every value of the type, and the results being a value of the
    type and a byte sequence of the width, the conversion is a bijection for
    each width. *)
Theorem encode_decode_value_bijection (T : uint_t) (b : list Z) (x : Z) :
  length b = sizeof T -> Forall is_byte b -> in_range T x ->
  decode_value T (encode_value T b) = b /\
  in_range T (encode_value T b) /\
  encode_value T (decode_value T x) = x /\
  length (decode_value T x) = sizeof T /\
  Forall is_byte (decode_value T x).
Proof.
  intros Hl Hb Hx.
  rewrite !decode_value_be, encode_value_be by trivial.
  pose proof (be_value_range _ Hb) as Hr. rewrite Hl, <- pow_bits in Hr.
  repeat split; try apply Hr.
  - rewrite <- Hl. now apply be_bytes_be_value.
  - rewrite encode_value_be.
    + now apply be_value_be_bytes_in_range.
    + apply be_bytes_is_byte.
    + apply length_be_bytes.
  - apply length_be_bytes.
  - apply be_bytes_is_byte.
Qed.

(** The round trips on a 32-bit byte sequence and a 32-bit value. *)
Lemma encode_decode_value_bijection_witness :
  decode_value uint32_t (encode_value uint32_t [0xDE; 0xAD; 0xBE; 0xEF])
    = [0xDE; 0xAD; 0xBE; 0xEF] /\
  encode_value uint32_t (decode_value uint32_t 0x01020304) = 0x01020304.
Proof.
  pose proof (encode_decode_value_bijection uint32_t
                [0xDE; 0xAD; 0xBE; 0xEF] 0x01020304) as H.
  destruct H as (H1 & _ & H2 & _).
  - reflexivity.
  - repeat constructor; unfold is_byte; lia.
  - unfold in_range. change (2 ^ bits uint32_t) with 4294967296. lia.
  - split; [exact H1 | exact H2].
Defined.

(** C7: for every unsigned value [x] of width 1, 2, 4 or 8 bytes,
    [convert_big_endian] applied twice gives [x] back on either host byte
    order, [byteswap] applied twice gives [x] back, [byteswap] reverses the
    byte sequence of [x] (and stays in the type), and at width 1 [byteswap]
    is the identity. *)
Theorem byteswap_convert_big_endian_involution
    (host : byte_order) (T : uint_t) (x : Z) :
  in_range T x ->
  convert_big_endian host T (convert_big_endian host T x) = x /\
  byteswap T (byteswap T x) = x /\
  decode_value T (byteswap T x) = rev (decode_value T x) /\
  in_range T (byteswap T x) /\
  (sizeof T = 1%nat -> byteswap T x = x).
Proof.
  intros Hx. repeat split.
  - destruct host; cbn [convert_big_endian]; [now apply byteswap_byteswap | reflexivity].
  - now apply byteswap_byteswap.
  - rewrite !decode_value_be. apply byteswap_bytes.
  - now apply byteswap_in_range.
  - now apply byteswap_in_range.
  - destruct T; cbn [sizeof]; intros E; try discriminate E. reflexivity.
Qed.

(** A 32-bit value on a little-endian host. *)
Lemma byteswap_convert_big_endian_involution_witness :
  byteswap uint32_t 0x11223344 = 0x44332211 /\
  convert_big_endian LittleEndian uint32_t
    (convert_big_endian LittleEndian uint32_t 0x11223344) = 0x11223344.
Proof.
  pose proof (byteswap_convert_big_endian_involution LittleEndian uint32_t 0x11223344) as H.
  destruct H as (H1 & _).
  - unfold in_range. change (2 ^ bits uint32_t) with 4294967296. lia.
  - split; [reflexivity | exact H1].
Defined.

(** C8: [encode_uint16] and [encode_uint32] are total functions of their
    byte arguments that combine them from most to least significant:
    [encode_uint16(msb, lsb) = (msb << 8) | lsb] and
    [encode_uint32(b1, b2, b3, b4) = (b1 << 24) | (b2 << 16) | (b3 << 8) | b4],
    which are the big-endian values of the byte sequences; in particular
    [encode_uint16(0x12, 0x34) = 0x1234] and
    [encode_uint32(0x01, 0x02, 0x03, 0x04) = 0x01020304]. *)
Theorem encode_uint16_uint32_spec (msb lsb byte1 byte2 byte3 byte4 : Z) :
  is_byte msb -> is_byte lsb ->
  is_byte byte1 -> is_byte byte2 -> is_byte byte3 -> is_byte byte4 ->
  encode_uint16 msb lsb = Z.lor (Z.shiftl msb 8) lsb /\
  encode_uint16 msb lsb = encode_value uint16_t [msb; lsb] /\
  encode_uint32 byte1 byte2 byte3 byte4 =
    Z.lor (Z.lor (Z.lor (Z.shiftl byte1 24) (Z.shiftl byte2 16))
                 (Z.shiftl byte3 8)) byte4 /\
  encode_uint32 byte1 byte2 byte3 byte4 =
    encode_value uint32_t [byte1; byte2; byte3; byte4] /\
  encode_uint16 0x12 0x34 = 0x1234 /\
  encode_uint32 0x01 0x02 0x03 0x04 = 0x01020304.
Proof.
  intros Hm Hl H1 H2 H3 H4.
  rewrite !encode_value_be
    by (try reflexivity; repeat (apply Forall_cons; [assumption|]); apply Forall_nil).
  repeat split.
  - rewrite encode_uint16_horner, lor_shiftl_8 by trivial.
    cbv [be_value fold_left]. lia.
  - now apply encode_uint16_horner.
  - now apply encode_uint32_lor.
  - now apply encode_uint32_horner.
Qed.

(** Two further byte patterns. *)
Lemma encode_uint16_uint32_spec_witness :
  encode_uint16 0xAB 0xCD = Z.lor (Z.shiftl 0xAB 8) 0xCD /\
  encode_uint32 0xDE 0xAD 0xBE 0xEF = encode_value uint32_t [0xDE; 0xAD; 0xBE; 0xEF].
Proof.
  pose proof (encode_uint16_uint32_spec 0xAB 0xCD 0xDE 0xAD 0xBE 0xEF) as H.
  destruct H as (H1 & _ & _ & H2 & _);
    [unfold is_byte; lia .. | split; [exact H1 | exact H2]].
Defined.

(** C10: [reverse_bits] is an involution at each of its three widths, and
    the 16- and 32-bit forms agree with the 8-bit form: the bytes of the
    reversed value are the bit-reversed bytes of the argument in reverse
    order. *)
Theorem reverse_bits_involution (x8 x16 x32 : Z) :
  in_range uint8_t x8 -> in_range uint16_t x16 -> in_range uint32_t x32 ->
  reverse_bits8 (reverse_bits8 x8) = x8 /\
  reverse_bits16 (reverse_bits16 x16) = x16 /\
  reverse_bits32 (reverse_bits32 x32) = x32 /\
  decode_value uint16_t (reverse_bits16 x16) =
    rev (map reverse_bits8 (decode_value uint16_t x16)) /\
  decode_value uint32_t (reverse_bits32 x32) =
    rev (map reverse_bits8 (decode_value uint32_t x32)).
Proof.
  intros H8 H16 H32. rewrite !decode_value_be. repeat split.
  - now apply reverse_bits8_involutive, is_byte_in_range.
  - now apply reverse_bits16_involutive.
  - now apply reverse_bits32_involutive.
  - apply reverse_bits16_bytes.
  - apply reverse_bits32_bytes.
Qed.

(** The lowest bit, at each width. *)
Lemma reverse_bits_involution_witness :
  reverse_bits8 (reverse_bits8 0x01) = 0x01 /\
  reverse_bits16 (reverse_bits16 0x0001) = 0x0001 /\
  reverse_bits32 (reverse_bits32 0x00000001) = 0x00000001.
Proof.
  pose proof (reverse_bits_involution 0x01 0x0001 0x00000001) as H.
  destruct H as (H1 & H2 & H3 & _);
    [unfold in_range; cbn; lia .. | repeat split; assumption].
Defined.

Section HexDigits.

Lemma hex_digit_range c v : hex_digit c = Some v -> 0 <= v < 16.
Proof.
  unfold hex_digit.
  repeat match goal with
         | |- context [if ?b then _ else _] => destruct b eqn:?
         end; intros E; inversion E; subst; lia.
Qed.

Lemma hex_digit_NUL : hex_digit zero = None.
Proof. reflexivity. Qed.

Lemma hex_run_le_strlen str : (hex_run str <= strlen str)%nat.
Proof.
  induction str as [|c str IH]; cbn [hex_run strlen]; [lia|].
  destruct (Ascii.eqb_spec c zero) as [->|_].
  - now rewrite hex_digit_NUL.
  - destruct (hex_digit c); lia.
Qed.

Lemma strlen_le_length str : (strlen str <= String.length str)%nat.
Proof.
  induction str as [|c str IH]; cbn [strlen String.length]; [lia|].
  destruct (Ascii.eqb c zero); lia.
Qed.

Lemma starts_with_hex_digits_run str n :
  starts_with_hex_digits str n <-> (n <= hex_run str)%nat.
Proof.
  unfold starts_with_hex_digits. revert n.
  induction str as [|c str IH]; intros n; cbn [hex_run].
  - split.
    + intros H. destruct n; [lia|].
      destruct (H O ltac:(lia)) as (c & v & Hc & _). discriminate Hc.
    + intros Hn i Hi. lia.
  - split.
    + intros H. destruct n as [|n]; [lia|].
      destruct (H O ltac:(lia)) as (c' & v & Hc & Hv). cbn in Hc.
      injection Hc as <-. rewrite Hv. apply le_n_S, IH.
      intros i Hi. apply (H (S i)). lia.
    + intros Hn [|i] Hi.
      * destruct (hex_digit c) as [v|] eqn:E; [|lia]. now exists c, v.
      * destruct (hex_digit c) as [v|] eqn:E; [|lia].
        cbn [String.get]. apply (proj2 (IH (Nat.pred n))); lia.
Qed.

Lemma parse_hex_digits_fst str chars i data :
  fst (parse_hex_digits str chars i data) = Nat.min chars (hex_run str).
Proof.
  revert chars i data.
  induction str as [|c str IH]; intros [|chars] i data; cbn [parse_hex_digits hex_run];
    try reflexivity.
  destruct (hex_digit c) as [v|]; [|reflexivity].
  specialize (IH chars (S i) (write_nibble data i v)).
  destruct (parse_hex_digits str chars (S i) (write_nibble data i v)) as [n d].
  cbn [fst] in *. now rewrite IH.
Qed.

(** The return value of the buffer form: the characters consumed are the
    leading digits of [str], at most [len] and at most [2*count] of them. *)
Lemma parse_hex_fst str len data count :
  fst (parse_hex str len data count)
  = Nat.min (Nat.min len (2 * count)) (hex_run str).
Proof. unfold parse_hex. apply parse_hex_digits_fst. Qed.

End HexDigits.

Section Buffers.

Lemma length_array_set d j v : length (array_set d j v) = length d.
Proof.
  revert j; induction d as [|x d IH]; intros [|j]; cbn [array_set length]; auto.
Qed.

Lemma skipn_array_set_ge k d j v :
  (k <= j)%nat -> skipn k (array_set d j v) = array_set (skipn k d) (j - k) v.
Proof.
  revert d j; induction k as [|k IH]; intros d j Hk.
  - now rewrite Nat.sub_0_r.
  - destruct d as [|x d]; [destruct j; reflexivity|].
    destruct j as [|j]; [lia|]. cbn [array_set skipn Nat.sub]. apply IH. lia.
Qed.

Lemma skipn_array_set_lt k d j v :
  (j < k)%nat -> skipn k (array_set d j v) = skipn k d.
Proof.
  revert d j; induction k as [|k IH]; intros d j Hk; [lia|].
  destruct d as [|x d]; [destruct j; reflexivity|].
  destruct j as [|j]; cbn [array_set skipn]; [reflexivity|]. apply IH. lia.
Qed.

Lemma firstn_array_set_ge k d j v :
  (k <= j)%nat -> firstn k (array_set d j v) = firstn k d.
Proof.
  revert d j; induction k as [|k IH]; intros d j Hk; [reflexivity|].
  destruct d as [|x d]; [destruct j; reflexivity|].
  destruct j as [|j]; [lia|]. cbn [array_set firstn]. f_equal. apply IH. lia.
Qed.

Lemma byte_at_skipn k d j :
  (k <= j)%nat -> byte_at (skipn k d) (j - k) = byte_at d j.
Proof.
  unfold byte_at. revert d j; induction k as [|k IH]; intros d j Hk.
  - now rewrite Nat.sub_0_r.
  - destruct j as [|j]; [lia|]. destruct d as [|x d].
    + cbn [skipn Nat.sub nth]. now destruct (j - k)%nat.
    + cbn [skipn nth Nat.sub]. apply IH. lia.
Qed.

Lemma half_shift i k : (2 * k <= i)%nat -> ((i - 2 * k) / 2 = i / 2 - k)%nat.
Proof.
  intros H. replace i with ((i - 2 * k) + k * 2)%nat at 2 by lia.
  rewrite Nat.div_add by lia. lia.
Qed.

Lemma even_shift i k : (2 * k <= i)%nat -> Nat.even (i - 2 * k) = Nat.even i.
Proof.
  intros H. replace i with ((i - 2 * k) + 2 * k)%nat at 2 by lia.
  now rewrite Nat.even_add_mul_2.
Qed.

Lemma half_ge i k : (2 * k <= i)%nat -> (k <= i / 2)%nat.
Proof. intros H. apply Nat.div_le_lower_bound; lia. Qed.

(** A digit stored at nibble [2*k] or later leaves the first [k] bytes
    alone and acts on the rest as on a buffer of its own. *)
Lemma write_nibble_frame k d i v :
  (2 * k <= i)%nat ->
  firstn k (write_nibble d i v) = firstn k d /\
  skipn k (write_nibble d i v) = write_nibble (skipn k d) (i - 2 * k) v.
Proof.
  intros H. pose proof (half_ge i k H) as Hk. unfold write_nibble.
  rewrite even_shift, half_shift by trivial.
  destruct (Nat.even i).
  - split; [now apply firstn_array_set_ge | now apply skipn_array_set_ge].
  - rewrite byte_at_skipn by trivial.
    split; [now apply firstn_array_set_ge | now apply skipn_array_set_ge].
Qed.

Lemma parse_hex_digits_frame k str chars i d :
  (2 * k <= i)%nat ->
  firstn k (snd (parse_hex_digits str chars i d)) = firstn k d /\
  skipn k (snd (parse_hex_digits str chars i d))
  = snd (parse_hex_digits str chars (i - 2 * k) (skipn k d)).
Proof.
  revert chars i d.
  induction str as [|c str IH]; intros [|chars] i d Hk; cbn [parse_hex_digits snd];
    try (split; reflexivity).
  destruct (hex_digit c) as [v|]; [|split; reflexivity].
  destruct (write_nibble_frame k d i v Hk) as [Hf Hs].
  destruct (IH chars (S i) (write_nibble d i v) ltac:(lia)) as [IHf IHs].
  replace (S i - 2 * k)%nat with (S (i - 2 * k)) in IHs by lia.
  rewrite Hs in IHs.
  destruct (parse_hex_digits str chars (S i) (write_nibble d i v)) as [n d'].
  destruct (parse_hex_digits str chars (S (i - 2 * k))
              (write_nibble (skipn k d) (i - 2 * k) v)) as [n2 d2].
  cbn [snd] in *. split; congruence.
Qed.

End Buffers.

Section Padding.

Lemma parse_hex_digits_zeros p str n i d :
  parse_hex_digits (zeros p ++ str) (p + n) i d =
  (p + fst (parse_hex_digits str n (i + p) (pad_writes p i d)),
   snd (parse_hex_digits str n (i + p) (pad_writes p i d)))%nat.
Proof.
  revert i d. induction p as [|p IH]; intros i d.
  - cbn [zeros String.append Nat.add pad_writes seq fold_left].
    rewrite Nat.add_0_r. now destruct (parse_hex_digits str n i d).
  - cbn [zeros String.append Nat.add parse_hex_digits].
    change (hex_digit "0") with (Some 0). cbv beta iota.
    rewrite IH. cbn [fst snd]. cbn [pad_writes seq fold_left].
    replace (i + S p)%nat with (S i + p)%nat by lia. reflexivity.
Qed.

Lemma pad_writes_S p d :
  pad_writes (S p) 0 d = write_nibble (pad_writes p 0 d) p 0.
Proof. unfold pad_writes. now rewrite seq_S, fold_left_app. Qed.

Lemma skipn_write_nibble_lt k d i v :
  (i < 2 * k)%nat -> skipn k (write_nibble d i v) = skipn k d.
Proof.
  intros H. assert (i / 2 < k)%nat by (apply Nat.Div0.div_lt_upper_bound; lia).
  unfold write_nibble. destruct (Nat.even i); now apply skipn_array_set_lt.
Qed.

(** Padding digits below nibble [2*k] do not reach byte [k]. *)
Lemma skipn_pad_writes p k d :
  (p <= 2 * k)%nat -> skipn k (pad_writes p 0 d) = skipn k d.
Proof.
  induction p as [|p IH]; intros Hp; [reflexivity|].
  rewrite pad_writes_S, skipn_write_nibble_lt by lia. apply IH. lia.
Qed.

(** The padded text and the short text leave the same bytes from byte
    [pad/2] on. *)
Lemma skipn_pad_writes_half pad d :
  skipn (pad / 2) (pad_writes pad 0 d)
  = skipn (pad / 2) (if Nat.odd pad then array_set d (pad / 2) 0 else d).
Proof.
  destruct (Nat.Even_or_Odd pad) as [[k ->]|[k ->]].
  - rewrite Nat.odd_even, Nat.mul_comm, Nat.div_mul by lia.
    apply skipn_pad_writes. lia.
  - replace (Nat.odd (2 * k + 1)) with true by (symmetry; apply Nat.odd_spec; now exists k).
    replace ((2 * k + 1) / 2)%nat with k
      by (apply Nat.div_unique with 1%nat; lia).
    replace (2 * k + 1)%nat with (S (2 * k)) by lia.
    rewrite pad_writes_S. unfold write_nibble.
    rewrite Nat.even_even, Nat.mul_comm, Nat.div_mul by lia.
    change (Z.shiftl 0 4) with 0.
    rewrite !skipn_array_set_ge by lia. f_equal.
    rewrite Nat.mul_comm. apply skipn_pad_writes. lia.
Qed.

End Padding.

(** C6: when [text_len < 2*out_count], the buffer form writes the value
    right-aligned: from byte [pad/2] on the buffer is the one the text
    left-padded with '0' to [2*out_count] characters gives, every byte before
    it keeps its prior value, and the return value is the number of
    characters of the text that were consumed (the padded parse consumes the
    padding besides).  In particular [parse_hex("bcd", 3, out, 2)] returns 3
    with [out = [0x0B, 0xCD]]. *)
Theorem parse_hex_right_aligned
    (str : string) (len : nat) (data : list Z) (count : nat) :
  (len < 2 * count)%nat ->
  let pad := (2 * count - len)%nat in
  let padded := (zeros pad ++ str)%string in
  skipn (pad / 2) (snd (parse_hex str len data count))
  = skipn (pad / 2) (snd (parse_hex padded (2 * count) data count)) /\
  firstn (pad / 2) (snd (parse_hex str len data count)) = firstn (pad / 2) data /\
  fst (parse_hex str len data count) = Nat.min len (hex_run str) /\
  fst (parse_hex padded (2 * count) data count)
  = (pad + fst (parse_hex str len data count))%nat /\
  (forall out0 out1 : Z,
     parse_hex "bcd" 3 [out0; out1] 2 = (3%nat, [0x0B; 0xCD])).
Proof.
  intros Hlen pad padded.
  assert (Hhalf : (2 * (pad / 2) <= pad)%nat) by (apply Nat.Div0.mul_div_le; lia).
  set (data0 := if Nat.odd pad then array_set data (pad / 2) 0 else data).
  set (data1 := pad_writes pad 0 data).
  assert (Hshort : parse_hex str len data count = parse_hex_digits str len pad data0).
  { unfold parse_hex. now rewrite Nat.min_l by lia. }
  assert (Hpadded : parse_hex padded (2 * count) data count
                    = ((pad + fst (parse_hex_digits str len pad data1))%nat,
                       snd (parse_hex_digits str len pad data1))).
  { unfold parse_hex. rewrite Nat.min_id, Nat.sub_diag.
    cbn [Nat.odd Nat.even].
    replace (2 * count)%nat with (pad + len)%nat by (unfold pad; lia).
    unfold padded. now rewrite parse_hex_digits_zeros. }
  rewrite Hshort, Hpadded. cbn [fst snd].
  destruct (parse_hex_digits_frame (pad / 2) str len pad data0 Hhalf) as [Hf Hs].
  destruct (parse_hex_digits_frame (pad / 2) str len pad data1 Hhalf) as [_ Hs'].
  repeat split.
  - rewrite Hs, Hs'. unfold data1, data0. now rewrite skipn_pad_writes_half.
  - rewrite Hf. unfold data0. destruct (Nat.odd pad); [|reflexivity].
    now apply firstn_array_set_ge.
  - apply parse_hex_digits_fst.
  - now rewrite !parse_hex_digits_fst.
Qed.

(** Spec 8.6, the full-length parse:
    [parse_hex("abcd", 4, out, 2)] returns 4 with [out = [0xAB, 0xCD]]. *)
Example parse_hex_abcd (out0 out1 : Z) :
  parse_hex "abcd" 4 [out0; out1] 2 = (4%nat, [0xAB; 0xCD]).
Proof. reflexivity. Qed.

(** Three digits into a two-byte buffer that held [0xFF, 0xFF]. *)
Lemma parse_hex_right_aligned_witness :
  skipn 0 (snd (parse_hex "bcd" 3 [0xFF; 0xFF] 2))
  = skipn 0 (snd (parse_hex "0bcd" 4 [0xFF; 0xFF] 2)) /\
  fst (parse_hex "bcd" 3 [0xFF; 0xFF] 2) = 3%nat.
Proof.
  pose proof (parse_hex_right_aligned "bcd" 3 [0xFF; 0xFF] 2) as H.
  destruct H as (H1 & _ & H2 & _); [lia|].
  split; [exact H1 | exact H2].
Defined.

Section BufferBytes.

Lemma Forall_array_set (P : Z -> Prop) d j v :
  Forall P d -> P v -> Forall P (array_set d j v).
Proof.
  intros Hd Hv. revert j. induction Hd as [|x d Hx Hd IH]; intros [|j];
    cbn [array_set]; constructor; auto.
Qed.

Lemma byte_at_is_byte d j : Forall is_byte d -> is_byte (byte_at d j).
Proof.
  intros Hd. unfold byte_at. destruct (Nat.lt_ge_cases j (length d)) as [H|H].
  - eapply Forall_forall; [exact Hd|]. now apply nth_In.
  - rewrite nth_overflow by trivial. unfold is_byte. lia.
Qed.

Lemma write_nibble_bytes d i v :
  Forall is_byte d -> 0 <= v < 16 ->
  Forall is_byte (write_nibble d i v) /\ length (write_nibble d i v) = length d.
Proof.
  intros Hd Hv. unfold write_nibble.
  destruct (Nat.even i); (split; [|apply length_array_set]);
    apply Forall_array_set; trivial.
  - unfold is_byte. rewrite Z.shiftl_mul_pow2 by lia. change (2 ^ 4) with 16. lia.
  - apply is_byte_in_range, lor_in_range.
    + apply is_byte_in_range. now apply byte_at_is_byte.
    + unfold in_range. change (2 ^ bits uint8_t) with 256. lia.
Qed.

Lemma parse_hex_digits_bytes str chars i d :
  Forall is_byte d ->
  Forall is_byte (snd (parse_hex_digits str chars i d)) /\
  length (snd (parse_hex_digits str chars i d)) = length d.
Proof.
  revert chars i d.
  induction str as [|c str IH]; intros [|chars] i d Hd; cbn [parse_hex_digits snd];
    try solve [split; trivial].
  destruct (hex_digit c) as [v|] eqn:Hv; [|split; trivial].
  destruct (write_nibble_bytes d i v Hd (hex_digit_range _ _ Hv)) as [Hw Hl].
  specialize (IH chars (S i) _ Hw).
  destruct (parse_hex_digits str chars (S i) (write_nibble d i v)) as [n d'].
  cbn [snd] in *. split; [tauto | lia].
Qed.

(** The buffer form keeps the buffer a byte buffer of the same length. *)
Lemma parse_hex_bytes str len d count :
  Forall is_byte d ->
  Forall is_byte (snd (parse_hex str len d count)) /\
  length (snd (parse_hex str len d count)) = length d.
Proof.
  intros Hd. unfold parse_hex.
  set (pad := (2 * count - Nat.min len (2 * count))%nat).
  destruct (Nat.odd pad).
  - destruct (parse_hex_digits_bytes str (Nat.min len (2 * count)) pad
                (array_set d (pad / 2) 0)) as [H1 H2].
    + apply Forall_array_set; trivial. unfold is_byte. lia.
    + split; trivial. now rewrite H2, length_array_set.
  - now apply parse_hex_digits_bytes.
Qed.

Lemma repeat_zero_bytes n : Forall is_byte (repeat 0 n).
Proof. induction n; cbn [repeat]; constructor; trivial. unfold is_byte. lia. Qed.

End BufferBytes.

(** C5: the strict forms answer true exactly when the buffer form consumed
    exactly [2*count] characters, which is exactly when [str] begins with
    [2*count] hexadecimal digits: a shortfall (the text ends earlier) or
    another character among the first [2*count] gives false. *)
Theorem parse_hex_strict_exact (str : string) (data : list Z) (count : nat) :
  (fst (parse_hex_cstr str data count) = true <->
   fst (parse_hex str (strlen str) data count) = (2 * count)%nat) /\
  (fst (parse_hex_cstr str data count) = true <->
   starts_with_hex_digits str (2 * count)) /\
  (fst (parse_hex_string str data count) = true <->
   fst (parse_hex str (String.length str) data count) = (2 * count)%nat) /\
  (fst (parse_hex_string str data count) = true <->
   starts_with_hex_digits str (2 * count)).
Proof.
  pose proof (hex_run_le_strlen str) as H1.
  pose proof (strlen_le_length str) as H2.
  unfold parse_hex_cstr, parse_hex_string.
  pose proof (parse_hex_fst str (strlen str) data count) as Hc.
  pose proof (parse_hex_fst str (String.length str) data count) as Hs.
  destruct (parse_hex str (strlen str) data count) as [n d].
  destruct (parse_hex str (String.length str) data count) as [n' d'].
  cbn [fst] in *. rewrite !starts_with_hex_digits_run, !Nat.eqb_eq.
  repeat split; lia.
Qed.

(** Four digits for two bytes, and a text with another character in it. *)
Lemma parse_hex_strict_exact_witness :
  fst (parse_hex_cstr "abcd" [0; 0] 2) = true /\
  fst (parse_hex_string "abxd" [0; 0] 2) = false.
Proof.
  pose proof (parse_hex_strict_exact "abcd" [0; 0] 2) as H.
  destruct H as ((_ & H) & _).
  split; [apply H; reflexivity | reflexivity].
Defined.


Section TypedParseProofs.

Variable buffer_form : string -> nat -> list Z -> nat -> nat * list Z.

(** The buffer form writes bytes into the [count] bytes it is handed, and
    nowhere else. *)
Hypothesis buffer_form_bytes :
  forall str len data count,
    Forall is_byte data ->
    Forall is_byte (snd (buffer_form str len data count)) /\
    length (snd (buffer_form str len data count)) = length data.


End TypedParseProofs.

(** [parse_hex_uint] is the typed form over the buffer form modelled from
    the spec. *)
Lemma parse_hex_uint_with_parse_hex host T str len :
  parse_hex_uint host T str len = parse_hex_uint_with parse_hex host T str len.
Proof. reflexivity. Qed.


Section Allocator.

Import ExternalRAMAllocator.

(** C2: [allocate(n)] asks the external RAM pool first (where the target has
    one); when that gives nothing it asks the internal heap unless
    [REFUSE_INTERNAL] is set; the first pool that answers decides the
    pointer returned; when no pool satisfies the request it returns
    [nullptr] if [ALLOW_FAILURE] is set and aborts if it is not. *)
Theorem allocate_policy (pf : platform) (flags_ sizeof_T n : Z) :
  let size := (n * sizeof_T) mod 2 ^ size_t_bits pf in
  let refuse := negb (Z.land flags_ REFUSE_INTERNAL =? 0) in
  let allow := negb (Z.land flags_ ALLOW_FAILURE =? 0) in
  let external := if USE_ESP32 pf then heap_caps_malloc pf size else None in
  fst (allocate pf flags_ sizeof_T n)
  = (if USE_ESP32 pf then [ExternalRAM size] else [])
    ++ (if is_null external && negb refuse then [InternalHeap size] else []) /\
  snd (allocate pf flags_ sizeof_T n)
  = match external with
    | Some p => Returns (Some p)
    | None =>
        match (if refuse then None else malloc pf size) with
        | Some p => Returns (Some p)
        | None => if allow then Returns None else Aborts
        end
    end.
Proof.
  intros size refuse allow external. unfold allocate. fold size.
  subst external refuse allow.
  destruct (USE_ESP32 pf); [destruct (heap_caps_malloc pf size)|];
    cbn [is_null andb];
    destruct (Z.land flags_ REFUSE_INTERNAL =? 0); cbn [negb is_null andb];
    try destruct (malloc pf size); cbn [is_null andb app fst snd];
    destruct (Z.land flags_ ALLOW_FAILURE =? 0); cbn [negb fst snd];
    split; reflexivity.
Qed.

(** C3, amended: on a target without the external RAM pool, [allocate(n)]
    with [REFUSE_INTERNAL] unset is the plain heap allocation with the same
    [ALLOW_FAILURE] policy; with [REFUSE_INTERNAL] set it asks no pool and
    fails, returning [nullptr] if [ALLOW_FAILURE] is set and aborting if
    not. *)
Theorem allocate_without_external_ram (pf : platform) (flags_ sizeof_T n : Z) :
  USE_ESP32 pf = false ->
  allocate pf flags_ sizeof_T n
  = if Z.land flags_ REFUSE_INTERNAL =? 0
    then heap_allocate_spec pf flags_ sizeof_T n
    else ([], if Z.land flags_ ALLOW_FAILURE =? 0 then Aborts else Returns None).
Proof.
  intros Hno. unfold allocate, heap_allocate_spec. rewrite Hno.
  cbn [is_null andb].
  destruct (Z.land flags_ REFUSE_INTERNAL =? 0); cbn [app is_null andb];
    [reflexivity|].
  destruct (Z.land flags_ ALLOW_FAILURE =? 0); reflexivity.
Qed.

End Allocator.

(** The three failure paths on a target whose pools are both exhausted
    (spec 8.9). *)
Lemma allocate_policy_examples :
  ExternalRAMAllocator.allocate esp32_out_of_memory
    (Z.lor ExternalRAMAllocator.REFUSE_INTERNAL ExternalRAMAllocator.ALLOW_FAILURE) 4 16
  = ([ExternalRAMAllocator.ExternalRAM 64], ExternalRAMAllocator.Returns None) /\
  ExternalRAMAllocator.allocate esp32_out_of_memory
    ExternalRAMAllocator.REFUSE_INTERNAL 4 16
  = ([ExternalRAMAllocator.ExternalRAM 64], ExternalRAMAllocator.Aborts) /\
  ExternalRAMAllocator.allocate esp32_out_of_memory ExternalRAMAllocator.NONE 4 16
  = ([ExternalRAMAllocator.ExternalRAM 64; ExternalRAMAllocator.InternalHeap 64],
     ExternalRAMAllocator.Aborts).
Proof. repeat split. Qed.

(** A target without external RAM, [ALLOW_FAILURE] only. *)
Lemma allocate_without_external_ram_witness :
  ExternalRAMAllocator.allocate esp8266_with_free_heap ExternalRAMAllocator.ALLOW_FAILURE 4 16
  = ExternalRAMAllocator.heap_allocate_spec esp8266_with_free_heap
      ExternalRAMAllocator.ALLOW_FAILURE 4 16.
Proof.
  exact (allocate_without_external_ram esp8266_with_free_heap
           ExternalRAMAllocator.ALLOW_FAILURE 4 16 eq_refl).
Defined.

(** C3 as stated fails: on a target without external RAM whose heap is
    free, [allocate] with [REFUSE_INTERNAL] set asks no pool and returns
    [nullptr] (or aborts), where the plain heap allocation returns memory. *)
Lemma allocate_refuse_internal_counterexample :
  ExternalRAMAllocator.USE_ESP32 esp8266_with_free_heap = false /\
  ExternalRAMAllocator.allocate esp8266_with_free_heap
    (Z.lor ExternalRAMAllocator.REFUSE_INTERNAL ExternalRAMAllocator.ALLOW_FAILURE) 4 16
  = ([], ExternalRAMAllocator.Returns None) /\
  ExternalRAMAllocator.heap_allocate_spec esp8266_with_free_heap
    (Z.lor ExternalRAMAllocator.REFUSE_INTERNAL ExternalRAMAllocator.ALLOW_FAILURE) 4 16
  = ([ExternalRAMAllocator.InternalHeap 64],
     ExternalRAMAllocator.Returns (Some 0x3FFE8000)) /\
  ExternalRAMAllocator.allocate esp8266_with_free_heap
    ExternalRAMAllocator.REFUSE_INTERNAL 4 16
  = ([], ExternalRAMAllocator.Aborts) /\
  ExternalRAMAllocator.heap_allocate_spec esp8266_with_free_heap
    ExternalRAMAllocator.REFUSE_INTERNAL 4 16
  = ([ExternalRAMAllocator.InternalHeap 64],
     ExternalRAMAllocator.Returns (Some 0x3FFE8000)).
Proof. repeat split. Qed.


(** * Further properties *)

Section BitMirror.

(** The bits of [hi * 2^k + lo] for [lo] below [2^k]. *)
Lemma testbit_glue k hi lo i :
  0 <= k -> 0 <= lo < 2 ^ k -> 0 <= i ->
  Z.testbit (hi * 2 ^ k + lo) i
  = if i <? k then Z.testbit lo i else Z.testbit hi (i - k).
Proof.
  intros Hk Hlo Hi.
  rewrite <- lor_shiftl_add, Z.lor_spec, Z.shiftl_spec by lia.
  destruct (Z.ltb_spec i k) as [Hlt|Hge].
  - now rewrite Z.testbit_neg_r by lia.
  - rewrite <- (Z.mod_small lo (2 ^ k)) by lia.
    rewrite Z.mod_pow2_bits_high by lia. apply orb_false_r.
Qed.

Lemma testbit_low_part x k i :
  0 <= i < k -> Z.testbit (x mod 2 ^ k) i = Z.testbit x i.
Proof. intros Hi. apply Z.mod_pow2_bits_low. lia. Qed.

Lemma testbit_high_part x k i :
  0 <= k -> 0 <= i < k ->
  Z.testbit ((x / 2 ^ k) mod 2 ^ k) i = Z.testbit x (i + k).
Proof.
  intros Hk Hi. rewrite Z.mod_pow2_bits_low by lia.
  apply Z.div_pow2_bits; lia.
Qed.

Lemma reverse_bits16_testbit x i :
  0 <= i < 16 -> Z.testbit (reverse_bits16 x) i = Z.testbit x (15 - i).
Proof.
  intros Hi. rewrite reverse_bits16_eq.
  pose proof (reverse_bits8_is_byte ((x / 256) mod 256)) as Hb.
  assert (Hlo : is_byte (x mod 256)) by (apply Z.mod_pos_bound; lia).
  assert (Hhi : is_byte ((x / 256) mod 256)) by (apply Z.mod_pos_bound; lia).
  rewrite (testbit_glue 8 (reverse_bits8 (x mod 256))) by (trivial; lia).
  destruct (Z.ltb_spec i 8).
  - rewrite reverse_bits8_testbit by (trivial; lia).
    rewrite (testbit_high_part x 8) by lia. f_equal. lia.
  - rewrite reverse_bits8_testbit by (trivial; lia).
    rewrite (testbit_low_part x 8) by lia. f_equal. lia.
Qed.

Lemma reverse_bits32_testbit x i :
  0 <= i < 32 -> Z.testbit (reverse_bits32 x) i = Z.testbit x (31 - i).
Proof.
  intros Hi. rewrite reverse_bits32_eq.
  pose proof (reverse_bits16_in_range ((x / 65536) mod 65536)) as Hb.
  unfold in_range in Hb. change (2 ^ bits uint16_t) with (2 ^ 16) in Hb.
  rewrite (testbit_glue 16 (reverse_bits16 (x mod 65536))) by (trivial; lia).
  destruct (Z.ltb_spec i 16).
  - rewrite reverse_bits16_testbit by lia.
    rewrite (testbit_high_part x 16) by lia. f_equal. lia.
  - rewrite reverse_bits16_testbit by lia.
    rewrite (testbit_low_part x 16) by lia. f_equal. lia.
Qed.

End BitMirror.

(** X1: [reverse_bits] mirrors the bits at each width: bit [i] of the result
    is bit [N-1-i] of the argument, for N = 8, 16, 32. *)
Theorem reverse_bits_mirror (x8 x16 x32 i8 i16 i32 : Z) :
  in_range uint8_t x8 -> 0 <= i8 < 8 -> 0 <= i16 < 16 -> 0 <= i32 < 32 ->
  Z.testbit (reverse_bits8 x8) i8 = Z.testbit x8 (7 - i8) /\
  Z.testbit (reverse_bits16 x16) i16 = Z.testbit x16 (15 - i16) /\
  Z.testbit (reverse_bits32 x32) i32 = Z.testbit x32 (31 - i32).
Proof.
  intros H8 Hi8 Hi16 Hi32. repeat split.
  - apply reverse_bits8_testbit; [now apply is_byte_in_range | trivial].
  - now apply reverse_bits16_testbit.
  - now apply reverse_bits32_testbit.
Qed.

(** Bit 0 of the argument at each width. *)
Lemma reverse_bits_mirror_witness :
  Z.testbit (reverse_bits8 0x01) 7 = true /\
  Z.testbit (reverse_bits16 0x0001) 15 = true /\
  Z.testbit (reverse_bits32 0x00000001) 31 = true.
Proof.
  pose proof (reverse_bits_mirror 0x01 0x0001 0x00000001 7 15 31) as H.
  destruct H as (H1 & H2 & H3);
    [unfold in_range; cbn; lia | lia | lia | lia |].
  split; [rewrite H1; reflexivity|].
  split; [rewrite H2 | rewrite H3]; reflexivity.
Defined.

Section ByteOrderMore.

Lemma be_value_cons x l :
  be_value (x :: l) = x * 256 ^ Z.of_nat (length l) + be_value l.
Proof.
  induction l as [|b l IH] using rev_ind.
  - cbn. lia.
  - rewrite app_comm_cons, !be_value_snoc, IH, length_app, Nat.add_1_r,
      Nat2Z.inj_succ, Z.pow_succ_r by lia. ring.
Qed.

(** Numeric order of big-endian values is the lexicographic order of the
    byte sequences. *)
Lemma be_value_compare a b :
  Forall is_byte a -> Forall is_byte b -> length a = length b ->
  (be_value a ?= be_value b) = lex_compare a b.
Proof.
  intros Ha. revert b. induction Ha as [|x a Hx Ha IH]; intros b Hb Hl.
  - destruct b; [reflexivity | discriminate Hl].
  - destruct Hb as [|y b Hy Hb]; [discriminate Hl|].
    injection Hl as Hl. cbn [lex_compare].
    rewrite !be_value_cons, <- Hl.
    pose proof (be_value_range a Ha) as Ra.
    pose proof (be_value_range b Hb) as Rb. rewrite <- Hl in Rb.
    set (p := 256 ^ Z.of_nat (length a)) in *.
    specialize (IH b Hb Hl).
    destruct (Z.compare_spec x y) as [->|Hlt|Hgt].
    + rewrite <- IH. destruct (Z.compare_spec (be_value a) (be_value b));
        [apply Z.compare_eq_iff | apply Z.compare_lt_iff | apply Z.compare_gt_iff]; lia.
    + apply Z.compare_lt_iff. nia.
    + apply Z.compare_gt_iff. nia.
Qed.

Lemma object_bytes_convert host T x :
  object_bytes host T (convert_big_endian host T x) = be_bytes (sizeof T) x.
Proof.
  destruct host; cbn [object_bytes convert_big_endian]; [|reflexivity].
  now rewrite byteswap_bytes, rev_involutive.
Qed.

Lemma object_value_bytes host T x :
  in_range T x -> object_value host (object_bytes host T x) = x.
Proof.
  intros Hx. destruct host; cbn [object_value object_bytes];
    rewrite ?rev_involutive; now apply be_value_be_bytes_in_range.
Qed.

Lemma length_object_bytes host T x : length (object_bytes host T x) = sizeof T.
Proof.
  destruct host; cbn [object_bytes]; rewrite ?length_rev; apply length_be_bytes.
Qed.

End ByteOrderMore.

(** X2: for byte sequences of the width of [T], comparing the values
    [encode_value] gives is comparing the sequences lexicographically: the
    first byte is the most significant. *)
Theorem encode_value_lexicographic (T : uint_t) (a b : list Z) :
  length a = sizeof T -> length b = sizeof T ->
  Forall is_byte a -> Forall is_byte b ->
  (encode_value T a ?= encode_value T b) = lex_compare a b.
Proof.
  intros La Lb Ha Hb. rewrite !encode_value_be by trivial.
  apply be_value_compare; trivial. congruence.
Qed.

(** Two sequences that differ in the last byte, and two in the first. *)
Lemma encode_value_lexicographic_witness :
  (encode_value uint32_t [1; 2; 3; 4] ?= encode_value uint32_t [1; 2; 3; 5]) = Lt /\
  (encode_value uint16_t [2; 0] ?= encode_value uint16_t [1; 255]) = Gt.
Proof.
  split.
  - rewrite (encode_value_lexicographic uint32_t [1; 2; 3; 4] [1; 2; 3; 5]);
      [reflexivity | reflexivity | reflexivity | |];
      repeat constructor; unfold is_byte; lia.
  - reflexivity.
Defined.

(** X3: [encode_uint32] is [encode_uint16] of the first two bytes in the
    high half and [encode_uint16] of the last two in the low half. *)
Theorem encode_uint32_of_uint16 (byte1 byte2 byte3 byte4 : Z) :
  is_byte byte1 -> is_byte byte2 -> is_byte byte3 -> is_byte byte4 ->
  encode_uint32 byte1 byte2 byte3 byte4
  = Z.lor (Z.shiftl (encode_uint16 byte1 byte2) 16) (encode_uint16 byte3 byte4) /\
  Z.shiftr (encode_uint32 byte1 byte2 byte3 byte4) 16 = encode_uint16 byte1 byte2 /\
  cast uint16_t (encode_uint32 byte1 byte2 byte3 byte4) = encode_uint16 byte3 byte4.
Proof.
  intros H1 H2 H3 H4.
  rewrite encode_uint32_horner, !encode_uint16_horner by trivial.
  unfold is_byte in *. cbv [be_value fold_left].
  rewrite !Z.mul_0_l, !Z.add_0_l.
  assert (E : Z.lor (Z.shiftl (byte1 * 256 + byte2) 16) (byte3 * 256 + byte4)
              = (byte1 * 256 + byte2) * 65536 + (byte3 * 256 + byte4)).
  { rewrite lor_shiftl_add by (change (2 ^ 16) with 65536; lia). reflexivity. }
  rewrite E, Z.shiftr_div_pow2 by lia. unfold cast.
  change (2 ^ bits uint16_t) with 65536. change (2 ^ 16) with 65536.
  repeat split; [lia | Z.div_mod_to_equations; lia | Z.div_mod_to_equations; lia].
Qed.

Lemma encode_uint32_of_uint16_witness :
  encode_uint32 0xDE 0xAD 0xBE 0xEF
  = Z.lor (Z.shiftl (encode_uint16 0xDE 0xAD) 16) (encode_uint16 0xBE 0xEF).
Proof.
  pose proof (encode_uint32_of_uint16 0xDE 0xAD 0xBE 0xEF) as H.
  destruct H as (H & _); [unfold is_byte; lia .. | exact H].
Defined.

(** X4: [convert_big_endian] gives the value whose storage on the host, read
    from the lowest address, is the big-endian byte sequence of the
    argument, on either byte order; and a value is recovered from its
    storage. *)
Theorem convert_big_endian_storage (host : byte_order) (T : uint_t) (x : Z) :
  in_range T x ->
  object_bytes host T (convert_big_endian host T x) = decode_value T x /\
  object_value host (object_bytes host T x) = x /\
  convert_big_endian host T (object_value host (decode_value T x)) = x.
Proof.
  intros Hx. rewrite decode_value_be. repeat split.
  - apply object_bytes_convert.
  - now apply object_value_bytes.
  - rewrite convert_big_endian_object.
    + now apply be_value_be_bytes_in_range.
    + apply be_bytes_is_byte.
    + apply length_be_bytes.
Qed.

Lemma convert_big_endian_storage_witness :
  object_bytes LittleEndian uint32_t
    (convert_big_endian LittleEndian uint32_t 0x11223344)
  = [0x11; 0x22; 0x33; 0x44].
Proof.
  pose proof (convert_big_endian_storage LittleEndian uint32_t 0x11223344) as H.
  destruct H as (H & _);
    [unfold in_range; change (2 ^ bits uint32_t) with 4294967296; lia|].
  rewrite H. reflexivity.
Defined.

(** X5: the typed [format_hex] and [format_hex_pretty] format the byte
    sequence [decode_value] gives, most significant byte first, whatever
    the host byte order. *)
Theorem format_hex_uint_big_endian
    (format_hex format_hex_pretty : list Z -> string)
    (host : byte_order) (T : uint_t) (val : Z) :
  format_hex_uint format_hex host T val = format_hex (decode_value T val) /\
  format_hex_pretty_uint format_hex_pretty host T val
  = format_hex_pretty (decode_value T val).
Proof.
  unfold format_hex_uint, format_hex_pretty_uint.
  rewrite object_bytes_convert, decode_value_be.
  assert (E : firstn (sizeof T) (be_bytes (sizeof T) val) = be_bytes (sizeof T) val).
  { apply firstn_all2. now rewrite length_be_bytes. }
  now rewrite E.
Qed.

Section ClampProofs.

Variable T : Type.
Variable comp : T -> T -> bool.

(** The comparison is a strict weak ordering, as [std::clamp] asks:
    asymmetric, and whatever is below [c] but not below [b] has [b] below
    [c]. *)
Hypothesis comp_asym : forall a b, comp a b = true -> comp b a = false.
Hypothesis comp_cotrans :
  forall a b c, comp a c = true -> comp a b = true \/ comp b c = true.

Lemma comp_irrefl a : comp a a = false.
Proof. destruct (comp a a) eqn:E; [now rewrite (comp_asym a a E) in E | reflexivity]. Qed.

(** X6: with bounds in order ([hi] not below [lo]) the result of [clamp] is
    neither below [lo] nor above [hi], a value already within the bounds is
    returned unchanged, and clamping again changes nothing. *)
Theorem clamp_within_bounds (v lo hi : T) :
  comp hi lo = false ->
  comp (clamp_comp v lo hi comp) lo = false /\
  comp hi (clamp_comp v lo hi comp) = false /\
  (comp v lo = false -> comp hi v = false -> clamp_comp v lo hi comp = v) /\
  clamp_comp (clamp_comp v lo hi comp) lo hi comp = clamp_comp v lo hi comp.
Proof.
  intros Hb. pose proof (comp_irrefl lo) as Hlo. pose proof (comp_irrefl hi) as Hhi.
  unfold clamp_comp.
  destruct (comp v lo) eqn:E1; [|destruct (comp hi v) eqn:E2];
    rewrite ?Hlo, ?Hhi, ?Hb, ?E1, ?E2; repeat split; trivial; discriminate.
Qed.

(** X7: [clamp] is monotone in the value: if [v'] is not below [v] then the
    clamped [v'] is not below the clamped [v], the bounds being in order. *)
Theorem clamp_monotone (v v' lo hi : T) :
  comp hi lo = false -> comp v' v = false ->
  comp (clamp_comp v' lo hi comp) (clamp_comp v lo hi comp) = false.
Proof.
  intros Hb Hv. pose proof (comp_irrefl lo) as Hlo. pose proof (comp_irrefl hi) as Hhi.
  unfold clamp_comp.
  destruct (comp v lo) eqn:E1; [|destruct (comp hi v) eqn:E2];
    (destruct (comp v' lo) eqn:F1; [|destruct (comp hi v') eqn:F2]);
    trivial.
  - destruct (comp_cotrans v' v lo F1) as [H|H]; congruence.
  - destruct (comp_cotrans hi v' v E2) as [H|H]; congruence.
  - destruct (comp_cotrans v' v lo F1) as [H|H]; congruence.
Qed.

End ClampProofs.

Section ClampOnZ.

Lemma ltb_asym a b : (a <? b) = true -> (b <? a) = false.
Proof. rewrite Z.ltb_lt, Z.ltb_ge. lia. Qed.

Lemma ltb_cotrans a b c : (a <? c) = true -> (a <? b) = true \/ (b <? c) = true.
Proof. rewrite !Z.ltb_lt. lia. Qed.

End ClampOnZ.

(** Integers with [<]: 300 clamped to 0..255. *)
Lemma clamp_within_bounds_witness :
  clamp Z.ltb 300 0 255 = 255 /\
  clamp_comp (clamp_comp 300 0 255 Z.ltb) 0 255 Z.ltb = clamp_comp 300 0 255 Z.ltb.
Proof.
  pose proof (clamp_within_bounds Z Z.ltb ltb_asym 300 0 255 eq_refl) as H.
  destruct H as (_ & _ & _ & H). split; [reflexivity | exact H].
Defined.

Lemma clamp_monotone_witness :
  (clamp_comp 300 0 255 Z.ltb <? clamp_comp (-5) 0 255 Z.ltb) = false.
Proof.
  exact (clamp_monotone Z Z.ltb ltb_asym ltb_cotrans (-5) 300 0 255 eq_refl eq_refl).
Defined.

Section DeduplicatorProofs.

Import Deduplicator.

Variable T : Type.
Variable T_eq : T -> T -> bool.
Variable T_init : T.

Lemma next_all_kept (this : t T) (values : list T) :
  (has_value_ this = true ->
   forall y, hd_error (fst (next_all T_eq this values)) = Some y ->
             T_eq (last_value_ this) y = false) /\
  (forall i x y,
     nth_error (fst (next_all T_eq this values)) i = Some x ->
     nth_error (fst (next_all T_eq this values)) (S i) = Some y ->
     T_eq x y = false).
Proof.
  revert this. induction values as [|v rest IH]; intros this.
  - split; [intros _ y Hy; discriminate Hy | intros [|i] x y Hx; discriminate Hx].
  - cbn [next_all]. unfold next.
    destruct (has_value_ this) eqn:Hh;
      [destruct (T_eq (last_value_ this) v) eqn:He|].
    + specialize (IH this). rewrite Hh in IH.
      destruct (next_all T_eq this rest) as [kept final]. exact IH.
    + specialize (IH {| has_value_ := true; last_value_ := v |}).
      destruct (next_all T_eq _ rest) as [kept final].
      cbn [fst has_value_ last_value_] in *. destruct IH as [IH1 IH2]. split.
      * intros _ y Hy. injection Hy as <-. exact He.
      * intros [|i] x y Hx Hy; cbn in Hx, Hy.
        -- injection Hx as <-. apply IH1; [reflexivity | now destruct kept].
        -- now apply (IH2 i).
    + specialize (IH {| has_value_ := true; last_value_ := v |}).
      destruct (next_all T_eq _ rest) as [kept final].
      cbn [fst has_value_ last_value_] in *. destruct IH as [IH1 IH2]. split.
      * intros Hf. discriminate Hf.
      * intros [|i] x y Hx Hy; cbn in Hx, Hy.
        -- injection Hx as <-. apply IH1; [reflexivity | now destruct kept].
        -- now apply (IH2 i).
Qed.

Lemma next_all_has_value (this : t T) (values : list T) :
  has_value (snd (next_all T_eq this values))
  = match values with [] => has_value this | _ :: _ => true end.
Proof.
  revert this. induction values as [|v rest IH]; intros this; [reflexivity|].
  cbn [next_all]. unfold next.
  destruct (has_value_ this) eqn:Hh;
    [destruct (T_eq (last_value_ this) v) eqn:He|];
    match goal with
    | |- context [next_all T_eq ?d rest] =>
        specialize (IH d); destruct (next_all T_eq d rest) as [kept final]
    end; cbn [snd] in *; rewrite IH; destruct rest; trivial.
Qed.

(** X9: of the values passed to a fresh [Deduplicator] the first one is
    always let through (also when it equals the value-initialised [T]), no
    two consecutive values that were let through compare equal, and
    [has_value()] is true exactly once [next] has been called. *)
Theorem deduplicator_no_repeats (values : list T) :
  hd_error (fst (next_all T_eq (init T_init) values)) = hd_error values /\
  (forall i x y,
     nth_error (fst (next_all T_eq (init T_init) values)) i = Some x ->
     nth_error (fst (next_all T_eq (init T_init) values)) (S i) = Some y ->
     T_eq x y = false) /\
  has_value (snd (next_all T_eq (init T_init) values))
  = negb (Nat.eqb (length values) 0).
Proof.
  split; [|split].
  - destruct values as [|v rest]; [reflexivity|].
    cbn [next_all next init has_value_].
    now destruct (next_all T_eq _ rest).
  - apply next_all_kept.
  - rewrite next_all_has_value. now destruct values.
Qed.

(** X10: after any call [next(value)], whatever it answered, [has_value()]
    is true, the remembered value compares equal to [value], and calling
    [next(value)] again answers false and leaves the object as it is;
    [value == value] is needed for this. *)
Theorem deduplicator_repeat_rejected (this : t T) (value : T) :
  T_eq value value = true ->
  has_value (snd (next T_eq this value)) = true /\
  T_eq (last_value_ (snd (next T_eq this value))) value = true /\
  next T_eq (snd (next T_eq this value)) value
  = (false, snd (next T_eq this value)).
Proof.
  intros Hrefl. unfold next, has_value.
  destruct (has_value_ this) eqn:Hh;
    [destruct (T_eq (last_value_ this) value) eqn:He|];
    cbn [snd has_value_ last_value_]; rewrite ?Hh, ?He, ?Hrefl; auto.
Qed.

Lemma next_all_keeps_all (this : t T) (l : list T) :
  (has_value_ this = true ->
   forall y, hd_error l = Some y -> T_eq (last_value_ this) y = false) ->
  (forall i x y,
     nth_error l i = Some x -> nth_error l (S i) = Some y -> T_eq x y = false) ->
  fst (next_all T_eq this l) = l.
Proof.
  revert this. induction l as [|v rest IH]; intros this Hhd Hadj; [reflexivity|].
  cbn [next_all]. unfold next.
  assert (Hrest : fst (next_all T_eq {| has_value_ := true; last_value_ := v |} rest)
                  = rest).
  { apply IH.
    - intros _ y Hy. apply (Hadj O v y); [reflexivity | now destruct rest].
    - intros i x y Hx Hy. now apply (Hadj (S i)). }
  destruct (has_value_ this) eqn:Hh.
  - rewrite (Hhd eq_refl v eq_refl).
    destruct (next_all T_eq _ rest) as [kept final]. cbn [fst] in *. now subst.
  - destruct (next_all T_eq _ rest) as [kept final]. cbn [fst] in *. now subst.
Qed.

(** X16: deduplicating is idempotent: the values a fresh [Deduplicator] let
    through are all let through again, in the same order, by another fresh
    one. *)
Theorem deduplicator_idempotent (values : list T) :
  fst (next_all T_eq (init T_init)
         (fst (next_all T_eq (init T_init) values)))
  = fst (next_all T_eq (init T_init) values).
Proof.
  apply next_all_keeps_all.
  - intros H. discriminate H.
  - apply next_all_kept.
Qed.

End DeduplicatorProofs.

(** Integers with [==]. *)
Lemma deduplicator_repeat_rejected_witness :
  Deduplicator.next Z.eqb
    (snd (Deduplicator.next Z.eqb (Deduplicator.init 0) 7)) 7
  = (false, snd (Deduplicator.next Z.eqb (Deduplicator.init 0) 7)).
Proof.
  pose proof (deduplicator_repeat_rejected Z Z.eqb (Deduplicator.init 0) 7 eq_refl) as H.
  destruct H as (_ & _ & H). exact H.
Defined.

Section CallbackProofs.

Import CallbackManager.

Variable Ts : Type.
Variable World : Type.

Lemma fold_add (cbs acc : list (callback Ts World)) :
  fold_left add cbs acc = acc ++ cbs.
Proof.
  revert acc. induction cbs as [|cb cbs IH]; intros acc; cbn [fold_left].
  - now rewrite app_nil_r.
  - rewrite IH. unfold add. now rewrite <- app_assoc.
Qed.

Lemma call_app_some (cbs : list (Ts -> World -> World)) rest args w :
  call (map Some cbs ++ rest) args w
  = call rest args (fold_left (fun w cb => cb args w) cbs w).
Proof.
  revert w. induction cbs as [|cb cbs IH]; intros w; [reflexivity|].
  cbn [map app call fold_left]. apply IH.
Qed.

(** X11: [call] runs the callbacks once each in the order [add] registered
    them, every one on the state the one before left; if one of them is an
    empty function, exactly those added before it have run when the call
    is left. *)
Theorem callbacks_run_in_order
    (before after : list (Ts -> World -> World)) (args : Ts) (w : World) :
  call (fold_left add (map Some before) []) args w
  = Returned (fold_left (fun w cb => cb args w) before w) /\
  call
    (fold_left add (map Some before ++ None :: map Some after) [])
    args w
  = BadFunctionCall (fold_left (fun w cb => cb args w) before w).
Proof.
  rewrite !fold_add. cbn [app]. split.
  - rewrite <- (app_nil_r (map Some before)). now rewrite call_app_some.
  - now rewrite call_app_some.
Qed.

End CallbackProofs.

Section AllocatorMore.

Import ExternalRAMAllocator.

(** X12: without [ALLOW_FAILURE] a call to [allocate] that returns never
    returns [nullptr]: it aborts, or it returns a pointer that one of the
    two pools gave for the requested size. *)
Theorem allocate_returns_pool_memory (pf : platform) (flags_ sizeof_T n : Z) :
  Z.land flags_ ALLOW_FAILURE = 0 ->
  let size := (n * sizeof_T) mod 2 ^ size_t_bits pf in
  snd (allocate pf flags_ sizeof_T n) = Aborts \/
  exists p,
    snd (allocate pf flags_ sizeof_T n) = Returns (Some p) /\
    ((USE_ESP32 pf = true /\ heap_caps_malloc pf size = Some p) \/
     (Z.land flags_ REFUSE_INTERNAL = 0 /\ malloc pf size = Some p)).
Proof.
  intros Hallow size. unfold allocate. fold size. rewrite Hallow.
  change (0 =? 0) with true.
  destruct (USE_ESP32 pf) eqn:Hesp;
    [destruct (heap_caps_malloc pf size) as [p|] eqn:Hext|];
    cbn [is_null andb].
  - right. exists p. cbn [is_null andb snd]. auto.
  - destruct (Z.eqb_spec (Z.land flags_ REFUSE_INTERNAL) 0) as [Hr|Hr];
      [destruct (malloc pf size) as [p|] eqn:Hm|]; cbn [is_null andb snd]; auto.
    right. exists p. auto.
  - destruct (Z.eqb_spec (Z.land flags_ REFUSE_INTERNAL) 0) as [Hr|Hr];
      [destruct (malloc pf size) as [p|] eqn:Hm|]; cbn [is_null andb snd]; auto.
    right. exists p. auto.
Qed.

(** X13: [allocate] does not notice when [n * sizeof(T)] leaves the range of
    [size_t]: two element counts whose byte sizes agree modulo
    [2^size_t_bits] make the same requests and end the same way. *)
Theorem allocate_size_wraps (pf : platform) (flags_ sizeof_T n n' : Z) :
  ((n - n') * sizeof_T) mod 2 ^ size_t_bits pf = 0 ->
  allocate pf flags_ sizeof_T n = allocate pf flags_ sizeof_T n'.
Proof.
  intros Hmod. unfold allocate.
  replace ((n * sizeof_T) mod 2 ^ size_t_bits pf)
    with ((n' * sizeof_T) mod 2 ^ size_t_bits pf); [reflexivity|].
  replace (n * sizeof_T) with (n' * sizeof_T + (n - n') * sizeof_T) by ring.
  now rewrite <- Zplus_mod_idemp_r, Hmod, Z.add_0_r.
Qed.

End AllocatorMore.

(** Four-byte elements on a 32-bit target: [2^30 + 1] elements are
    allocated like one element. *)
Lemma allocate_size_wraps_witness :
  ExternalRAMAllocator.allocate esp8266_with_free_heap
    ExternalRAMAllocator.NONE 4 (2 ^ 30 + 1)
  = ([ExternalRAMAllocator.InternalHeap 4],
     ExternalRAMAllocator.Returns (Some 0x3FFE8000)).
Proof.
  rewrite (allocate_size_wraps esp8266_with_free_heap
             ExternalRAMAllocator.NONE 4 (2 ^ 30 + 1) 1 eq_refl).
  reflexivity.
Defined.

(** The default flags on a target whose pools are both exhausted. *)
Lemma allocate_returns_pool_memory_witness :
  snd (ExternalRAMAllocator.allocate esp32_out_of_memory
         ExternalRAMAllocator.NONE 4 16) = ExternalRAMAllocator.Aborts \/
  exists p,
    snd (ExternalRAMAllocator.allocate esp32_out_of_memory
           ExternalRAMAllocator.NONE 4 16)
    = ExternalRAMAllocator.Returns (Some p).
Proof.
  destruct (allocate_returns_pool_memory esp32_out_of_memory
              ExternalRAMAllocator.NONE 4 16 eq_refl) as [H|(p & H & _)].
  - left. exact H.
  - right. exists p. exact H.
Defined.

Section Remap.

Lemma quot_between num den bound :
  0 < den ->
  Z.min 0 (den * bound) <= num <= Z.max 0 (den * bound) ->
  Z.min 0 bound <= Z.quot num den <= Z.max 0 bound.
Proof.
  intros Hd Hn.
  assert (E : Z.quot (den * bound) den = bound)
    by (rewrite Z.mul_comm; apply Z.quot_mul; lia).
  assert (E0 : Z.quot 0 den = 0) by (apply Z.quot_0_l; lia).
  assert (Hlow : Z.min 0 bound <= Z.quot num den).
  { destruct (Z.le_gt_cases 0 bound) as [Hb|Hb].
    - rewrite Z.min_l in * by nia. rewrite <- E0. apply Z.quot_le_mono; lia.
    - rewrite Z.min_r in * by nia. rewrite <- E. apply Z.quot_le_mono; lia. }
  assert (Hhigh : Z.quot num den <= Z.max 0 bound).
  { destruct (Z.le_gt_cases 0 bound) as [Hb|Hb].
    - rewrite Z.max_r in * by nia. rewrite <- E. apply Z.quot_le_mono; lia.
    - rewrite Z.max_l in * by nia. rewrite <- E0. apply Z.quot_le_mono; lia. }
  lia.
Qed.

End Remap.

(** X14: [remap] at [uint8_t] and [uint16_t]: for an input range
    [min < max], a value within it and a product that fits [int], the
    expression has a defined value, [min] is mapped to [min_out], [max] to
    [max_out], and every value in between to a value between [min_out] and
    [max_out], whichever of the two is the larger. *)
Theorem remap_within_output_range
    (T : uint_t) (value min max min_out max_out : Z) :
  (sizeof T <= 2)%nat ->
  in_range uint16_t min -> in_range uint16_t max ->
  in_range T min_out -> in_range T max_out ->
  min < max -> min <= value <= max ->
  (max - min) * Z.abs (max_out - min_out) <= INT_MAX ->
  exists r,
    remap T value min max min_out max_out = Some r /\
    Z.min min_out max_out <= r <= Z.max min_out max_out /\
    (value = min -> r = min_out) /\
    (value = max -> r = max_out).
Proof.
  intros HT Hmin Hmax Hlo Hhi Hlt Hv Hfit.
  set (den := max - min). set (bound := max_out - min_out).
  set (num := (value - min) * bound).
  assert (Hd : 0 < den) by (unfold den; lia).
  assert (Hnum : Z.min 0 (den * bound) <= num <= Z.max 0 (den * bound)).
  { unfold num, den. destruct (Z.le_gt_cases 0 bound).
    - rewrite Z.min_l, Z.max_r by nia. nia.
    - rewrite Z.min_r, Z.max_l by nia. nia. }
  pose proof (quot_between num den bound Hd Hnum) as Hq.
  assert (Hout : 0 <= min_out < 2 ^ bits T /\ 0 <= max_out < 2 ^ bits T)
    by (split; assumption).
  assert (H16 : 2 ^ bits T <= 65536) by (destruct T; cbn in HT; try lia; discriminate).
  unfold INT_MAX in Hfit. fold den bound in Hfit.
  assert (Hint : is_int num = true).
  { unfold is_int, INT_MIN, INT_MAX. apply andb_true_iff.
    rewrite Z.leb_le, Z.leb_le. change (2 ^ 31) with 2147483648 in *. lia. }
  assert (Hres : Z.min min_out max_out <= Z.quot num den + min_out
                 <= Z.max min_out max_out) by (unfold bound in Hq; lia).
  assert (Hint' : is_int (Z.quot num den + min_out) = true).
  { unfold is_int, INT_MIN, INT_MAX. apply andb_true_iff.
    rewrite Z.leb_le, Z.leb_le. change (2 ^ 31) with 2147483648. lia. }
  exists (Z.quot num den + min_out).
  unfold remap. fold bound num den. rewrite Hint. cbn [negb].
  replace (den =? 0) with false by (symmetry; apply Z.eqb_neq; lia).
  rewrite Hint'. cbn [negb].
  rewrite cast_small by (unfold in_range; lia).
  repeat split; try lia.
  - intros ->. unfold num. rewrite Z.sub_diag, Z.mul_0_l, Z.quot_0_l by lia. lia.
  - intros ->. subst num den. rewrite Z.mul_comm, Z.quot_mul by lia.
    unfold bound. lia.
Qed.

(** A percentage scaled to a byte, and a reversed output range. *)
Lemma remap_within_output_range_witness :
  remap uint8_t 50 0 100 0 255 = Some 127 /\
  exists r, remap uint8_t 25 0 100 255 0 = Some r /\ 0 <= r <= 255.
Proof.
  split; [reflexivity|].
  destruct (remap_within_output_range uint8_t 25 0 100 255 0)
    as (r & Hr & Hb & _);
    [cbn; lia | unfold in_range; cbn; lia .. | lia | lia
    | apply Z.leb_le; reflexivity |].
  exists r. split; [exact Hr | lia].
Defined.

Section VectorParse.

Lemma length_vector_resize data count : length (vector_resize data count) = count.
Proof.
  unfold vector_resize. rewrite length_app, length_firstn, repeat_length. lia.
Qed.

Lemma vector_resize_bytes data count :
  Forall is_byte data -> Forall is_byte (vector_resize data count).
Proof.
  intros Hd. unfold vector_resize. apply Forall_app. split.
  - rewrite <- (firstn_skipn count data) in Hd. now apply Forall_app in Hd.
  - apply repeat_zero_bytes.
Qed.

End VectorParse.

(** X15: the vector forms of [parse_hex] leave the vector with exactly
    [count] bytes whatever they answer (the vector is resized before the
    text is looked at), and they answer as the pointer forms do: true
    exactly when the text begins with [2*count] hexadecimal digits. *)
Theorem parse_hex_vector_resized (str : string) (data : list Z) (count : nat) :
  Forall is_byte data ->
  length (snd (parse_hex_cstr_vector str data count)) = count /\
  length (snd (parse_hex_string_vector str data count)) = count /\
  Forall is_byte (snd (parse_hex_cstr_vector str data count)) /\
  Forall is_byte (snd (parse_hex_string_vector str data count)) /\
  fst (parse_hex_cstr_vector str data count) = fst (parse_hex_cstr str data count) /\
  fst (parse_hex_string_vector str data count)
  = fst (parse_hex_string str data count).
Proof.
  intros Hd. pose proof (vector_resize_bytes data count Hd) as Hr.
  unfold parse_hex_cstr_vector, parse_hex_string_vector,
    parse_hex_cstr, parse_hex_string.
  pose proof (parse_hex_bytes str (strlen str) _ count Hr) as [B1 L1].
  pose proof (parse_hex_bytes str (String.length str) _ count Hr) as [B2 L2].
  pose proof (parse_hex_fst str (strlen str) (vector_resize data count) count) as F1.
  pose proof (parse_hex_fst str (String.length str) (vector_resize data count) count) as F2.
  pose proof (parse_hex_fst str (strlen str) data count) as G1.
  pose proof (parse_hex_fst str (String.length str) data count) as G2.
  rewrite length_vector_resize in L1, L2.
  destruct (parse_hex str (strlen str) (vector_resize data count) count).
  destruct (parse_hex str (String.length str) (vector_resize data count) count).
  destruct (parse_hex str (strlen str) data count).
  destruct (parse_hex str (String.length str) data count).
  cbn [fst snd] in *. subst. repeat split; trivial.
Qed.

(** Three digits for two bytes into an empty vector. *)
Lemma parse_hex_vector_resized_witness :
  length (snd (parse_hex_cstr_vector "abc" [] 2)) = 2%nat /\
  fst (parse_hex_cstr_vector "abc" [] 2) = false.
Proof.
  destruct (parse_hex_vector_resized "abc" [] 2 (Forall_nil _)) as (H & _).
  split; [exact H | reflexivity].
Defined.
